(** * Proximal operators (proxalgs/operators.py)

    A shallow embedding of the module's operators

      prox_{f,rho}(x0) = argmin_x ( f(x) + (rho / 2) ||x - x0||_2^2 )

    and the properties its specification states about them.

    - Arrays are numpy arrays: a shape and the row-major data.
    - The element type comes with its arithmetic ([dtype]).  Two instances
      are used: [exact F], the arithmetic of a real field [F] (the
      "real arrays" of the specification), in which the general statements
      are proved; and [float64], IEEE 754 binary64 as numpy computes, on
      which the operators run on concrete inputs.
    - Linear algebra (numpy.linalg.solve, scipy's spsolve, the SVD) is
      external to the module; it is modelled on MathComp matrices by its
      contract in exact arithmetic.
    - The SFO optimizer object is opaque: [sfo] is a program over the calls
      the module makes on it. *)

From HB Require Import structures.
From mathcomp Require Import boot order algebra.
From mathcomp Require Import ring_tactic field_tactic arithmetic_tactic.
From Corelib Require Import PrimFloat.

Set Implicit Arguments.
Unset Strict Implicit.
Unset Printing Implicit Defensive.

Import Order.TTheory GRing.Theory Num.Theory.
Local Open Scope ring_scope.

(** ** numpy arrays *)

Record ndarray (T : Type) := NDArray { shape : seq nat; data : seq T }.

Arguments NDArray {T} shape data.

Section Arrays.

Variables T U V : Type.

(** [a.size] *)
Definition arr_size (a : ndarray T) : nat := size (data a).

(** A one-dimensional array holding [xs]. *)
Definition array1d (xs : seq T) : ndarray T := NDArray [:: size xs] xs.

(** [a.flatten()] *)
Definition flatten (a : ndarray T) : ndarray T := array1d (data a).

(** [a.copy()]: arrays are values here, a copy is the array. *)
Definition copy (a : ndarray T) : ndarray T := a.

(** [a.reshape(sh)]: the same data under another shape; numpy raises
    ValueError unless the shape holds exactly the array's elements. *)
Definition reshape (a : ndarray T) (sh : seq nat) : option (ndarray T) :=
  if \prod_(d <- sh) d == arr_size a then Some (NDArray sh (data a)) else None.

(** A ufunc of one array, or of an array and a scalar: applied entry by
    entry, the shape is kept. *)
Definition arr_map (f : T -> U) (a : ndarray T) : ndarray U :=
  NDArray (shape a) (map f (data a)).

(** Two arrays agree in shape (and hold as many entries). *)
Definition same_shape (a : ndarray T) (b : ndarray U) : bool :=
  (shape a == shape b) && (size (data a) == size (data b)).

(** A ufunc of two arrays of one shape, entry by entry.  Operands of
    different shapes (numpy broadcasts them, or raises ValueError) are
    outside the model: [None]. *)
Definition arr_map2 (f : T -> U -> V) (a : ndarray T) (b : ndarray U)
  : option (ndarray V) :=
  if same_shape a b
  then Some (NDArray (shape a) [seq f p.1 p.2 | p <- zip (data a) (data b)])
  else None.

End Arrays.

(** ** Element types

    The arithmetic numpy and Python perform on the entries and on the
    scalars [rho] and [gamma]. *)

Record dtype (T : Type) := Dtype {
  num0 : T;
  num1 : T;
  plus : T -> T -> T;
  minus : T -> T -> T;
  times : T -> T -> T;
  divide : T -> T -> T;
  negate : T -> T;
  greater_equal : T -> T -> bool;
  less_equal : T -> T -> bool;
  maximum : T -> T -> T
}.

(** Exact arithmetic in a real field; [x / 0] is [0] there, so a statement
    about a quotient says that its divisor is not zero. *)
Definition exact (F : realFieldType) : dtype F :=
  {| num0 := 0; num1 := 1;
     plus := +%R; minus := fun x y => x - y;
     times := *%R; divide := fun x y => x / y;
     negate := -%R;
     greater_equal := fun x y => y <= x;
     less_equal := fun x y => x <= y;
     maximum := Num.max |}.

(** IEEE 754 binary64.  Comparisons with a NaN are false; numpy's maximum
    loop returns its first operand when it is a NaN or not below the second
    one, and the second operand otherwise. *)
Definition float64 : dtype float :=
  {| num0 := 0%float; num1 := 1%float;
     plus := PrimFloat.add; minus := PrimFloat.sub;
     times := PrimFloat.mul; divide := PrimFloat.div;
     negate := PrimFloat.opp;
     greater_equal := fun x y => PrimFloat.leb y x;
     less_equal := PrimFloat.leb;
     maximum := fun x y =>
       if PrimFloat.leb y x || ~~ PrimFloat.eqb x x then x else y |}.

Section Elementwise.

Variables (T : Type) (D : dtype T).

(** A boolean used as a number: [True] is 1, [False] is 0. *)
Definition of_bool (b : bool) : T := if b then num1 D else num0 D.

(** [a.astype(float)] for a boolean mask *)
Definition astype (m : ndarray bool) : ndarray T := arr_map of_bool m.

(** array (+|-|/) scalar, scalar * array *)
Definition add_scalar (a : ndarray T) (c : T) := arr_map (plus D ^~ c) a.
Definition sub_scalar (a : ndarray T) (c : T) := arr_map (minus D ^~ c) a.
Definition div_scalar (a : ndarray T) (c : T) := arr_map (divide D ^~ c) a.
Definition scale (c : T) (a : ndarray T) := arr_map (times D c) a.

(** array >= scalar, array <= scalar: boolean masks *)
Definition ge_scalar (a : ndarray T) (c : T) : ndarray bool :=
  arr_map (greater_equal D ^~ c) a.
Definition le_scalar (a : ndarray T) (c : T) : ndarray bool :=
  arr_map (less_equal D ^~ c) a.

(** array + array, array - array *)
Definition add (a b : ndarray T) := arr_map2 (plus D) a b.
Definition sub (a b : ndarray T) := arr_map2 (minus D) a b.
Definition mul (a b : ndarray T) := arr_map2 (times D) a b.

(** array * mask: the mask is cast to the array's element type. *)
Definition mul_mask (a : ndarray T) (m : ndarray bool) :=
  arr_map2 (times D) a (astype m).

(** [np.maximum(a, c)] *)
Definition np_maximum (a : ndarray T) (c : T) := arr_map (maximum D ^~ c) a.

(** *** sparse: the proximal operator of the l1 norm

<<
    lmbda = float(gamma) / rho
    return (x0 - lmbda) * (x0 >= lmbda) + (x0 + lmbda) * (x0 <= -lmbda)
>> *)
Definition sparse (x0 : ndarray T) (rho gamma : T) : option (ndarray T) :=
  let lmbda := divide D gamma rho in
  if mul_mask (sub_scalar x0 lmbda) (ge_scalar x0 lmbda) is Some upper then
    if mul_mask (add_scalar x0 lmbda) (le_scalar x0 (negate D lmbda))
         is Some lower
    then add upper lower
    else None
  else None.

(** *** nonneg: the indicator of the non-negative orthant

<<
    return np.maximum(x0, 0)
>> *)
Definition nonneg (x0 : ndarray T) (rho : T) : ndarray T :=
  np_maximum x0 (num0 D).

(** *** squared_error

<<
    return (x0 + x_obs / rho) / (1 + 1 / rho)
>> *)
Definition squared_error (x0 : ndarray T) (rho : T) (x_obs : ndarray T)
  : option (ndarray T) :=
  if add x0 (div_scalar x_obs rho) is Some num
  then Some (div_scalar num (plus D (num1 D) (divide D (num1 D) rho)))
  else None.

End Elementwise.

(** ** Linear algebra

    The arrays of [linsys], [smooth] and [nucnorm] are vectors and matrices:
    they are MathComp's, with the dimensions the docstrings ask for in the
    types ([P] square of the size of [q] and [x0], [x0] one-dimensional of
    length [n], [x0] two-dimensional). *)

(** What a library solver gives back: a solution; the error it raises; or,
    for scipy's sparse solve on an exactly singular matrix, the warning it
    issues, the array it then returns being filled with NaN, which no value
    of a real field stands for. *)
Variant exn := LinAlgError.

Variant warning := MatrixRankWarning.

Variant outcome (T : Type) :=
  | Returns (x : T)
  | Raises (e : exn)
  | WarnsNaN (w : warning).

Arguments Raises {T} e.
Arguments WarnsNaN {T} w.

Section LinearAlgebra.

Variable F : realFieldType.

(** [np.eye(n)] *)
Definition eye n : 'M[F]_n := 1%:M.

(** [numpy.linalg.solve(a, b)] is LAPACK's gesv.  In exact arithmetic it
    returns the solution of [a x = b] when [a] is invertible and raises
    [LinAlgError] ("Singular matrix") otherwise. *)
Definition np_linalg_solve n (a : 'M[F]_n) (b : 'cV[F]_n) : outcome 'cV[F]_n :=
  if a \in unitmx then Returns (invmx a *m b) else Raises LinAlgError.

(** [scipy.sparse.linalg.spsolve(A, b)]: the sparse LU solve; on a singular
    matrix it warns "Matrix is exactly singular" (a MatrixRankWarning),
    raises nothing and returns an array filled with NaN. *)
Definition spsolve n (a : 'M[F]_n) (b : 'cV[F]_n) : outcome 'cV[F]_n :=
  if a \in unitmx then Returns (invmx a *m b) else WarnsNaN MatrixRankWarning.

(** [np.ones(n)] *)
Definition ones (n : nat) : seq F := nseq n 1.

(** [c * np.ones(n)] *)
Definition scale_seq (c : F) (v : seq F) : seq F := [seq c * e | e <- v].

(** [scipy.sparse.spdiags(data, diags, m, n)]: row [k] of [data] is laid on
    diagonal [diags[k]] (0 the main one, [k > 0] above it, [k < 0] below),
    its entry of index [j] in column [j].  The sparse storage is not
    modelled, the matrix is. *)
Definition spdiags (rows : seq (seq F)) (diags : seq int) (m n : nat)
  : 'M[F]_(m, n) :=
  \matrix_(i < m, j < n)
    \sum_(k <- zip rows diags | (j%:Z - i%:Z == k.2)%R) nth 0 k.1 j.

(** *** linsys

    [q.size] is the dimension [n] of the types; [x0.copy()] is [x0], a
    vector being a value.

<<
    return np.linalg.solve(rho * np.eye(q.size) + P, rho * x0.copy() + q)
>> *)
Definition linsys n (x0 : 'cV[F]_n) (rho : F) (P : 'M[F]_n) (q : 'cV[F]_n)
  : outcome 'cV[F]_n :=
  np_linalg_solve (rho *: eye n + P) (rho *: x0 + q).

(** *** smooth

<<
    n = x0.shape[0]
    lap_op = spdiags([(2 + rho / gamma) * np.ones(n), -1 * np.ones(n),
                      -1 * np.ones(n)], [0, -1, 1], n, n, format='csc')
    x_out = spsolve(gamma * lap_op, rho * x0)
    return x_out
>> *)
Definition lap_op (n : nat) (rho gamma : F) : 'M[F]_n :=
  spdiags [:: scale_seq (2 + rho / gamma) (ones n);
              scale_seq (-1) (ones n);
              scale_seq (-1) (ones n)]
          [:: 0; -1; 1] n n.

Definition smooth n (x0 : 'cV[F]_n) (rho gamma : F) : outcome 'cV[F]_n :=
  let x_out := spsolve (gamma *: lap_op n rho gamma) (rho *: x0) in
  x_out.

(** *** nucnorm

    [np.linalg.svd(x0, full_matrices=False)] returns [u], the singular
    values [s] and [v] (the transposed right factor), with
    [min(m, n)] singular values.  The factorisation is the library's: here
    it is a parameter.

<<
    u, s, v = np.linalg.svd(x0, full_matrices=False)
    sthr = np.maximum(s - (gamma / float(rho)), 0)
    x_out = (u.dot(np.diag(sthr)).dot(v))
    return x_out
>> *)
Definition svd_type : Type :=
  forall m n, 'M[F]_(m, n) ->
    'M[F]_(m, minn m n) * 'rV[F]_(minn m n) * 'M[F]_(minn m n, n).

Definition nucnorm (svd : svd_type) m n (x0 : 'M[F]_(m, n)) (rho gamma : F)
  : 'M[F]_(m, n) :=
  let: (u, s, v) := svd m n x0 in
  let sthr := map_mx (fun sigma => Num.max (sigma - gamma / rho) 0) s in
  let x_out := u *m diag_mx sthr *m v in
  x_out.

(** The numpy view of a vector and of a matrix. *)
Definition nd_of_col n (x : 'cV[F]_n) : ndarray F :=
  NDArray [:: n] [seq x i 0 | i <- enum 'I_n].

Definition nd_of_mx m n (a : 'M[F]_(m, n)) : ndarray F :=
  NDArray [:: m; n] [seq a ij.1 ij.2 | ij <- allpairs pair (enum 'I_m) (enum 'I_n)].

Definition nd_of_row n (s : 'rV[F]_n) : ndarray F :=
  NDArray [:: n] [seq s 0 j | j <- enum 'I_n].

(** And back: the vector and the matrix an array holds, its data read in
    row-major order. *)
Definition col_of_nd n (a : ndarray F) : 'cV[F]_n :=
  \col_i nth 0 (data a) i.

Definition row_of_nd n (a : ndarray F) : 'rV[F]_n :=
  \row_j nth 0 (data a) j.

Definition mx_of_nd m n (a : ndarray F) : 'M[F]_(m, n) :=
  \matrix_(i, j) nth 0 (data a) (i * n + j).

(** The outcome of a solve, as an array. *)
Definition outcome_nd n (r : outcome 'cV[F]_n) : outcome (ndarray F) :=
  match r with
  | Returns x => Returns (nd_of_col x)
  | Raises e => Raises e
  | WarnsNaN w => WarnsNaN w
  end.

End LinearAlgebra.

(** ** Operators that delegate to a minimiser *)

Section Delegates.

Variable F : realFieldType.

Local Notation array := (ndarray F).
Local Notation "'let?' x := e 'in' k" := (obind (fun x => k) e)
  (at level 200, x name, e at level 100, k at level 200, only parsing).

(** [np.sum(a)], [np.mean(a)], [a ** 2], [np.zeros(sh)] *)
Definition np_sum (a : array) : F := \sum_(v <- data a) v.
Definition np_mean (a : array) : F := np_sum a / (arr_size a)%:R.
Definition square (a : array) : array := arr_map (fun v => v ^+ 2) a.
Definition zeros (sh : seq nat) : array :=
  NDArray sh (nseq (\prod_(d <- sh) d) 0).

(** [x.dot(w)] for [x] of shape (n, k) and [w] of shape (k,), a
    matrix-vector product, or of shape (k, p), the matrix product; the
    other cases of numpy's dot are outside the model. *)
Definition dot (x w : array) : option array :=
  if shape x is [:: n; k] then
    if shape w == [:: k] then
      Some (array1d (mkseq (fun i => \sum_(0 <= j < k)
                       nth 0 (data x) (i * k + j) * nth 0 (data w) j) n))
    else if shape w is [:: k'; p] then
      if k' == k then
        Some (NDArray [:: n; p]
                (mkseq (fun i => \sum_(0 <= j < k)
                          nth 0 (data x) (i %/ p * k + j)
                          * nth 0 (data w) (j * p + i %% p)) (n * p)))
      else None
    else None
  else None.

(** [x.T] for [x] of shape (n, k) *)
Definition transpose (x : array) : option array :=
  if shape x is [:: n; k] then
    Some (NDArray [:: k; n]
            (mkseq (fun i => nth 0 (data x) ((i %% n) * k + i %/ n)) (k * n)))
  else None.

(** [scipy.optimize.fmin_bfgs(f, x0, fprime)] is external.  What the module
    relies on is its interface: the minimiser works on parameter vectors,
    it starts from the flattened [x0], calls [f] and [fprime] on
    one-dimensional iterates (which is why [g] and [dg] below reshape their
    argument to [x0.shape]) and returns its last iterate.  The quasi-Newton
    iteration itself is a parameter; an exception of [f] or [fprime]
    propagates. *)
Definition minimizer : Type :=
  (seq F -> option F) -> (seq F -> option array) -> seq F -> option (seq F).

Definition fmin_bfgs (iterate : minimizer) (f : array -> option F)
    (x0 : array) (fprime : array -> option array) : option array :=
  omap (@array1d F)
       (iterate (fun x => f (array1d x)) (fun x => fprime (array1d x))
                (data (flatten x0))).

(** *** bfgs

<<
    g = lambda x: f(x) + (rho / 2) * np.sum((x.reshape(x0.shape) - x0) ** 2)
    dg = lambda x: fgrad(x) + rho * (x.reshape(x0.shape) - x0)
    return opt.fmin_bfgs(g, x0, dg, disp=False)
>> *)
Definition bfgs (iterate : minimizer) (x0 : array) (rho : F)
    (f : array -> option F) (fgrad : array -> option array) : option array :=
  let g := fun x : array =>
    let? fx := f x in
    let? xr := reshape x (shape x0) in
    let? d := sub (exact F) xr x0 in
    Some (fx + rho / 2 * np_sum (square d)) in
  let dg := fun x : array =>
    let? gx := fgrad x in
    let? xr := reshape x (shape x0) in
    let? d := sub (exact F) xr x0 in
    add (exact F) gx (scale (exact F) rho d) in
  fmin_bfgs iterate g x0 dg.

(** *** poissreg

    [np.exp] is not an operation of a real field: it is a parameter.
    [x.shape[0]] raises IndexError on an array without dimensions.

<<
    n = float(x.shape[0])
    f = lambda w: np.mean(np.exp(x.dot(w)) - y * x.dot(w))
    df = lambda w: (x.T.dot(np.exp(x.dot(w))) - x.T.dot(y)) / n
    return bfgs(x0, rho, f, df)
>> *)
Definition poissreg (iterate : minimizer) (exp : F -> F) (x0 : array)
    (rho : F) (x y : array) : option array :=
  if shape x is rows :: _ then
    let n : F := rows%:R in
    let f := fun w : array =>
      let? xw := dot x w in
      let? yxw := mul (exact F) y xw in
      let? d := sub (exact F) (arr_map exp xw) yxw in
      Some (np_mean d) in
    let df := fun w : array =>
      let? xw := dot x w in
      let? xt := transpose x in
      let? a := dot xt (arr_map exp xw) in
      let? b := dot xt y in
      let? d := sub (exact F) a b in
      Some (div_scalar (exact F) d n) in
    bfgs iterate x0 rho f df
  else None.

(** *** tvd

    The denoiser is scikit-image's: a parameter.

<<
    return denoise_tv_bregman(x0, rho / gamma)
>> *)
Definition tvd (denoise_tv_bregman : array -> F -> array) (x0 : array)
    (rho gamma : F) : array :=
  denoise_tv_bregman x0 (rho / gamma).

End Delegates.

(** ** linsys, smooth and nucnorm on numpy arrays

    The same three operators, read on arrays with numpy's rules for the
    shapes: which shapes each call accepts and which shape it returns.  The
    numbers are those of the operators above, on the vectors and matrices
    the arrays hold.  A call on shapes that are not modelled (broadcasting,
    stacked systems, several right-hand sides) gives [None]. *)

Section ArrayOperators.

Variable F : realFieldType.

Local Notation array := (ndarray F).
Local Notation "'let?' x := e 'in' k" := (obind (fun x => k) e)
  (at level 200, x name, e at level 100, k at level 200, only parsing).

(** [np.eye(n)] *)
Definition np_eye (n : nat) : array := nd_of_mx (eye F n).

(** [np.diag(s)] for a one-dimensional [s] of length [k]: the (k, k) matrix
    with [s] on its diagonal. *)
Definition np_diag (s : array) : option array :=
  if shape s is [:: k] then Some (nd_of_mx (diag_mx (row_of_nd k s)))
  else None.

(** [np.linalg.solve(a, b)] for [a] of shape (n, n) and [b] of shape (n,):
    the result has the shape of [b]. *)
Definition np_linalg_solve_nd (a b : array) : option (outcome array) :=
  if shape b is [:: n] then
    if shape a == [:: n; n] then
      Some (outcome_nd (np_linalg_solve (mx_of_nd n n a) (col_of_nd n b)))
    else None
  else None.

(** [spsolve(A, b)] for a sparse [A] of shape (n, n) and a dense
    one-dimensional [b]: the result has the shape of [b]. *)
Definition spsolve_nd n (a : 'M[F]_n) (b : array) : option (outcome array) :=
  if shape b == [:: n] then Some (outcome_nd (spsolve a (col_of_nd n b)))
  else None.

(** [np.linalg.svd(x0, full_matrices=False)] for [x0] of shape (m, n):
    [u] of shape (m, k), [s] of shape (k,) and [v] of shape (k, n), with
    [k = min(m, n)]. *)
Definition np_linalg_svd (svd : svd_type F) (x0 : array)
  : option (array * array * array) :=
  if shape x0 is [:: m; n] then
    let: (u, s, v) := svd m n (mx_of_nd m n x0) in
    Some (nd_of_mx u, nd_of_row s, nd_of_mx v)
  else None.

(** <<
    return np.linalg.solve(rho * np.eye(q.size) + P, rho * x0.copy() + q)
>> *)
Definition linsys_nd (x0 : array) (rho : F) (P q : array)
  : option (outcome array) :=
  let? a := add (exact F) (scale (exact F) rho (np_eye (arr_size q))) P in
  let? b := add (exact F) (scale (exact F) rho (copy x0)) q in
  np_linalg_solve_nd a b.

(** <<
    n = x0.shape[0]
    lap_op = spdiags(..., n, n, format='csc')
    x_out = spsolve(gamma * lap_op, rho * x0)
    return x_out
>>
    [x0.shape[0]] raises IndexError on an array without dimensions. *)
Definition smooth_nd (x0 : array) (rho gamma : F) : option (outcome array) :=
  if shape x0 is n :: _ then
    let x_out :=
      spsolve_nd (gamma *: lap_op n rho gamma) (scale (exact F) rho x0) in
    x_out
  else None.

(** <<
    u, s, v = np.linalg.svd(x0, full_matrices=False)
    sthr = np.maximum(s - (gamma / float(rho)), 0)
    x_out = (u.dot(np.diag(sthr)).dot(v))
    return x_out
>> *)
Definition nucnorm_nd (svd : svd_type F) (x0 : array) (rho gamma : F)
  : option array :=
  let? usv := np_linalg_svd svd x0 in
  let: (u, s, v) := usv in
  let sthr := np_maximum (exact F) (sub_scalar (exact F) s (gamma / rho)) 0 in
  let? d := np_diag sthr in
  let? ud := dot u d in
  let x_out := dot ud v in
  x_out.

End ArrayOperators.

(** ** sfo: the adapter of the Sum-of-Functions optimizer

    The optimizer is an object of the caller's.  [sfo] is the sequence of
    calls it makes on that object; an optimizer gives each call its meaning
    on the object's state. *)

Section SFO.

Variable F : realFieldType.

Local Notation array := (ndarray F).

(** The calls of [sfo], each with the type of what it gives back:
    [optimizer.set_theta(x0, float(rho))],
    [optimizer.theta_original_to_flat(x0)],
    the assignment [optimizer.theta_admm_prev = v] and
    [optimizer.optimize(num_steps=num_steps)]. *)
Variant call : Type -> Type :=
  | SetTheta (x0 : array) (weight : F) : call unit
  | ThetaOriginalToFlat (x0 : array) : call array
  | AssignThetaAdmmPrev (v : array) : call unit
  | Optimize (num_steps : nat) : call array.

Inductive program (R : Type) : Type :=
  | Return (r : R)
  | Call (A : Type) (c : call A) (k : A -> program R).

(** <<
    optimizer.set_theta(x0, float(rho))
    optimizer.theta_admm_prev = optimizer.theta_original_to_flat(x0)
    return optimizer.optimize(num_steps=num_steps)
>>
    [num_steps] is optional and defaults to 50; [optimizer] is what the
    program is run on. *)
Definition sfo (x0 : array) (rho : F) (num_steps : option nat)
  : program array :=
  let num_steps := odflt 50%N num_steps in
  Call (SetTheta x0 rho) (fun _ =>
  Call (ThetaOriginalToFlat x0) (fun flat =>
  Call (AssignThetaAdmmPrev flat) (fun _ =>
  Call (Optimize num_steps) (fun theta =>
  Return theta)))).

(** The optimizer object: the attribute [sfo] assigns, and the rest of its
    state, of a type [S] of its own. *)
Record object (S : Type) :=
  Object { theta_admm_prev : option array; attrs : S }.

(** Its methods; each may read and write the whole object. *)
Record optimizer (S : Type) := Optimizer {
  set_theta : array -> F -> object S -> object S;
  theta_original_to_flat : array -> object S -> array * object S;
  optimize : nat -> object S -> array * object S
}.

(** A call that was made, with what it gave back. *)
Variant event := Event (A : Type) (c : call A) (reply : A).

Definition perform S (opt : optimizer S) A (c : call A)
  : object S -> A * object S :=
  match c in call A return object S -> A * object S with
  | SetTheta x0 weight => fun o => (tt, set_theta opt x0 weight o)
  | ThetaOriginalToFlat x0 => fun o => theta_original_to_flat opt x0 o
  | AssignThetaAdmmPrev v => fun o => (tt, Object (Some v) (attrs o))
  | Optimize num_steps => fun o => optimize opt num_steps o
  end.

(** Running a program on an optimizer: the result, the object afterwards,
    and the calls made, in order. *)
Fixpoint run S (opt : optimizer S) R (p : program R) (o : object S)
  : R * object S * seq event :=
  match p with
  | Return r => (r, o, [::])
  | Call A c k =>
      let: (a, o1) := perform opt c o in
      let: (r, o2, calls) := run opt (k a) o1 in
      (r, o2, Event c a :: calls)
  end.

(** An optimizer whose [optimize(num_steps)] takes [num_steps] times its
    optimization step and returns the parameter then current. *)
Definition optimize_by_steps S (step : object S -> object S)
    (theta : object S -> array) (num_steps : nat) (o : object S)
  : array * object S :=
  (theta (iter num_steps step o), iter num_steps step o).

End SFO.

(** ** Notions the statements use *)

Section Notions.

Variable F : realFieldType.

(** The soft threshold as the specification words it. *)
Definition soft_threshold (lam x : F) : F :=
  if lam <= x then x - lam else if x <= - lam then x + lam else 0.

(** What the source computes for one entry. *)
Definition sparse_entry (lam x : F) : F :=
  (x - lam) * of_bool (exact F) (lam <= x)
  + (x + lam) * of_bool (exact F) (x <= - lam).

(** [||a - b||_2^2] for arrays of one shape *)
Definition sqdist (a b : ndarray F) : F :=
  \sum_(0 <= i < arr_size a) (nth 0 (data a) i - nth 0 (data b) i) ^+ 2.

(** Every entry is non-negative. *)
Definition nonnegative (a : ndarray F) : bool := all (fun v => 0 <= v) (data a).

(** [||x - x_obs||^2 / 2 + (rho / 2) ||x - x0||^2], the function whose
    proximal operator [squared_error] is. *)
Definition squared_error_objective (x0 : ndarray F) (rho : F)
    (x_obs x : ndarray F) : F :=
  sqdist x x_obs / 2 + rho / 2 * sqdist x x0.

(** The closed form as the specification words it. *)
Definition weighted_average (rho a b : F) : F := (a + b / rho) / (1 + 1 / rho).

(** The matrix the specification describes: [d] on the diagonal, [-1] on
    the first sub- and super-diagonals, [0] elsewhere. *)
Definition tridiagonal n (d : F) : 'M[F]_n :=
  \matrix_(i, j) (if i == j then d
                  else if (i.+1 == j :> nat) || (j.+1 == i :> nat) then -1
                  else 0).

(** [sigma' = max(sigma - lambda, 0)] *)
Definition shrink (lam sigma : F) : F := Num.max (sigma - lam) 0.

(** The minimiser keeps the number of parameters. *)
Definition keeps_length (iterate : minimizer F) : Prop :=
  forall f fprime x y, iterate f fprime x = Some y -> size y = size x.

(** The minimiser at a start where the gradient vanishes: fmin_bfgs
    returns the start at once.  (Other starts are left out of this
    instance.) *)
Definition stationary_start : minimizer F :=
  fun f fprime x =>
    if fprime x is Some g then
      if all (fun v => v == 0) (data g) then Some x else None
    else None.

(** The SVD of a matrix that is diagonal with a non-negative diagonal: the
    factors [u] and [v] are (rectangular) identities and [s] is the
    diagonal. *)
Definition diagonal_svd : svd_type F :=
  fun m n x0 =>
    (pid_mx (minn m n),
     \row_k x0 (widen_ord (geq_minl m n) k) (widen_ord (geq_minr m n) k),
     pid_mx (minn m n)).

(** An optimizer that does nothing but count its optimization steps; its
    parameter vector is the previous ADMM point. *)
Definition counting_optimizer : optimizer F nat :=
  {| set_theta := fun _ _ o => o;
     theta_original_to_flat := fun x0 o => (flatten x0, o);
     optimize :=
       optimize_by_steps
         (fun o => Object (theta_admm_prev o) (attrs o).+1)
         (fun o => odflt (array1d [::]) (theta_admm_prev o)) |}.

End Notions.

(** [sparse(sparse(x0, rho, gamma), rho, gamma)] *)
Definition sparse_twice (T : Type) (D : dtype T) (x0 : ndarray T)
    (rho gamma : T) : option (ndarray T) :=
  if sparse D x0 rho gamma is Some y then sparse D y rho gamma else None.

(** ** Notions the further properties use *)

Section Norms.

Variable F : realFieldType.

(** [||a||_1] *)
Definition l1_norm (a : ndarray F) : F :=
  \sum_(0 <= i < arr_size a) `|nth 0 (data a) i|.

(** [gamma ||x||_1 + (rho / 2) ||x - x0||^2], the function the module's
    header and the docstring of [sparse] name: [sparse] is documented as
    its minimiser. *)
Definition sparse_objective (x0 : ndarray F) (rho gamma : F) (x : ndarray F)
  : F :=
  gamma * l1_norm x + rho / 2 * sqdist x x0.

(** [||u||^2] for a vector *)
Definition sqnorm n (u : 'cV[F]_n) : F := \sum_i (u i 0) ^+ 2.

(** The inner product of two vectors. *)
Definition dotp n (u v : 'cV[F]_n) : F := \sum_i u i 0 * v i 0.

(** [(1/2) ||A x - b||^2 + (rho / 2) ||x - x0||^2], the function the
    docstring of [linsys] names, with [P = A^T A] and [q = A^T b]. *)
Definition linsys_objective m n (A : 'M[F]_(m, n)) (b : 'cV[F]_m)
    (x0 : 'cV[F]_n) (rho : F) (x : 'cV[F]_n) : F :=
  sqnorm (A *m x - b) / 2 + rho / 2 * sqnorm (x - x0).

(** What [fmin_bfgs] does at a start where the objective has a value and
    its gradient vanishes: the gradient norm is below the tolerance, no
    iteration is made and the start is returned. *)
Definition stops_when_stationary (iterate : minimizer F) : Prop :=
  forall f fprime x fx g,
    f x = Some fx -> fprime x = Some g ->
    all (fun v => v == 0) (data g) -> iterate f fprime x = Some x.

End Norms.

(** * Properties *)

(** ** Arrays *)

Section ArrayLemmas.

Variables T U V W : Type.

Lemma same_shape_map (f : T -> U) (g : T -> V) (a : ndarray T) :
  same_shape (arr_map f a) (arr_map g a).
Proof. by rewrite /same_shape /= !size_map !eqxx. Qed.

Lemma zip_map_map (f : T -> U) (g : T -> V) (s : seq T) :
  zip (map f s) (map g s) = [seq (f x, g x) | x <- s].
Proof. by elim: s => //= x s ->. Qed.

Lemma arr_map2_map (h : U -> V -> W) (f : T -> U) (g : T -> V)
    (a : ndarray T) :
  arr_map2 h (arr_map f a) (arr_map g a) =
  Some (arr_map (fun x => h (f x) (g x)) a).
Proof.
by rewrite /arr_map2 same_shape_map /arr_map /= zip_map_map -map_comp.
Qed.

Lemma arr_map_comp (f : U -> V) (g : T -> U) (a : ndarray T) :
  arr_map f (arr_map g a) = arr_map (f \o g) a.
Proof. by rewrite /arr_map /= -map_comp. Qed.

Lemma map_eqP (E : eqType) (f g : T -> E) (s : seq T) :
  reflect (map f s = map g s) (all (fun y => f y == g y) s).
Proof.
elim: s => [|y s IHs] /=; first by apply: ReflectT.
apply: (iffP andP) => [[/eqP-> /IHs-> //]|[-> /IHs->]].
by rewrite eqxx.
Qed.

End ArrayLemmas.

(** ** Soft threshold *)

Section SoftThreshold.

Variable F : realFieldType.
Implicit Types (x lam rho gamma : F).

Lemma sparse_entries (x0 : ndarray F) rho gamma :
  sparse (exact F) x0 rho gamma = Some (arr_map (sparse_entry (gamma / rho)) x0).
Proof.
rewrite /sparse /mul_mask /astype /sub_scalar /add_scalar /ge_scalar.
rewrite /le_scalar !arr_map_comp !arr_map2_map /add arr_map2_map.
by [].
Qed.

Lemma sparse_entryE lam x : 0 < lam -> sparse_entry lam x = soft_threshold lam x.
Proof.
move=> lam_gt0; rewrite /sparse_entry /soft_threshold /of_bool /=.
case: (lerP lam x) => h1; case: (lerP x (- lam)) => h2; try ring.
by lra.
Qed.

Lemma sparseE (x0 : ndarray F) rho gamma :
  0 < rho -> 0 < gamma ->
  sparse (exact F) x0 rho gamma = Some (arr_map (soft_threshold (gamma / rho)) x0).
Proof.
move=> rho_gt0 gamma_gt0; rewrite sparse_entries; congr (Some (NDArray _ _)).
by apply: eq_map => x; apply: sparse_entryE; apply: divr_gt0.
Qed.

End SoftThreshold.

(** C1. For positive [rho] and [gamma], [sparse x0 rho gamma] is the
    elementwise soft threshold of [x0] at [lambda = gamma / rho]: an entry
    [x >= lambda] becomes [x - lambda], an entry [x <= - lambda] becomes
    [x + lambda], any other entry becomes [0]. *)
Theorem sparse_soft_threshold (F : realFieldType) (x0 : ndarray F)
    (rho gamma : F) :
  0 < rho -> 0 < gamma ->
  sparse (exact F) x0 rho gamma =
  Some (arr_map (soft_threshold (gamma / rho)) x0).
Proof.
move=> rho_gt0 gamma_gt0.
have lmbda_gt0 : 0 < gamma / rho by apply: divr_gt0.
rewrite sparse_entries; congr (Some (NDArray _ _)).
apply: eq_map => x; rewrite /sparse_entry /soft_threshold /of_bool /=.
by case: (lerP (gamma / rho) x) => h1; case: (lerP x (- (gamma / rho))) => h2;
   try ring; lra.
Qed.

(** The scenario of the specification,
    [sparse([3.0, -3.0, 0.5], rho=1.0, gamma=1.0) = [2.0, -2.0, 0.0]],
    in exact arithmetic. *)
Lemma sparse_soft_threshold_scenario :
  sparse (exact rat) (array1d [:: 3; -3; 1 / 2]) 1 1 =
  Some (array1d [:: 2; -2; 0]).
Proof.
rewrite (@sparse_soft_threshold rat (array1d [:: 3; -3; 1 / 2]) 1 1) //.
Defined.

(** The same scenario as numpy runs it, in binary64. *)
Example sparse_scenario_float64 :
  sparse float64 (array1d [:: 3; -3; 0.5]%float) 1%float 1%float =
  Some (array1d [:: 2; -2; 0]%float).
Proof. by vm_compute. Qed.

(** ** Thresholding twice *)

Section SparseTwice.

Variable F : realFieldType.
Implicit Types (x lam rho gamma : F).

Lemma soft_threshold_twice lam x :
  0 < lam -> soft_threshold lam (soft_threshold lam x) = soft_threshold (2 * lam) x.
Proof.
move=> lam_gt0; rewrite /soft_threshold.
case: (lerP lam x) => h1; case: (lerP x (- lam)) => h2;
  repeat (case: lerP => ?); lra.
Qed.

Lemma soft_threshold_fixed lam x :
  0 < lam ->
  (soft_threshold lam (soft_threshold lam x) == soft_threshold lam x)
  = (`|x| <= lam).
Proof.
move=> lam_gt0; rewrite ler_norml /soft_threshold.
case: (lerP lam x) => h1; case: (lerP x (- lam)) => h2;
  repeat (case: lerP => ?); rewrite /=; apply/eqP; lra.
Qed.

Lemma sparse_twiceE (x0 : ndarray F) rho gamma :
  0 < rho -> 0 < gamma ->
  sparse_twice (exact F) x0 rho gamma =
  Some (arr_map (soft_threshold (gamma / rho) \o soft_threshold (gamma / rho)) x0).
Proof.
by move=> rho_gt0 gamma_gt0; rewrite /sparse_twice !sparseE // arr_map_comp.
Qed.

End SparseTwice.

(** C2 (as amended). For positive [rho] and [gamma], a second pass of
    [sparse] shrinks again: it is [sparse] at the doubled threshold.  The
    second pass returns the first pass's result exactly when every entry of
    [x0] lies within [gamma / rho] of zero, that is when the first pass
    already returned the zero array. *)
Theorem sparse_twice_fixed_iff (F : realFieldType) (x0 : ndarray F)
    (rho gamma : F) :
  0 < rho -> 0 < gamma ->
  sparse_twice (exact F) x0 rho gamma = sparse (exact F) x0 rho (2 * gamma)
  /\ (sparse_twice (exact F) x0 rho gamma = sparse (exact F) x0 rho gamma
      <-> all (fun x => `|x| <= gamma / rho) (data x0)).
Proof.
move=> rho_gt0 gamma_gt0.
have lam_gt0 : 0 < gamma / rho by apply: divr_gt0.
have gamma2_gt0 : 0 < 2 * gamma by lra.
rewrite sparse_twiceE // (sparseE _ rho_gt0 gamma_gt0).
rewrite (sparseE _ rho_gt0 gamma2_gt0).
split.
  congr (Some (NDArray _ _)); apply: eq_map => x /=.
  by rewrite soft_threshold_twice // mulrA.
have -> : all (fun x => `|x| <= gamma / rho) (data x0) =
          all (fun x => soft_threshold (gamma / rho)
                          (soft_threshold (gamma / rho) x)
                        == soft_threshold (gamma / rho) x) (data x0).
  by apply: eq_all => x; rewrite soft_threshold_fixed.
split; first by case=> /map_eqP.
by move=> /map_eqP h; congr (Some (NDArray _ _)).
Qed.

(** An input the first pass sends to zero is left there by the second. *)
Lemma sparse_twice_fixed_iff_holds :
  sparse_twice (exact rat) (array1d [:: 1 / 2; -1]) 1 1 =
  sparse (exact rat) (array1d [:: 1 / 2; -1]) 1 1.
Proof.
by apply/(proj2 (@sparse_twice_fixed_iff rat (array1d [:: 1 / 2; -1]) 1 1
                   isT isT)).
Defined.

(** C2 fails as stated: [[2]] is [sparse([3], 1, 1)], an already
    thresholded input, yet [sparse([2], 1, 1)] is [[1]] and a second pass
    gives [[0]]. *)
Lemma sparse_not_idempotent :
  sparse (exact rat) (array1d [:: 3]) 1 1 = Some (array1d [:: 2])
  /\ sparse (exact rat) (array1d [:: 2]) 1 1 = Some (array1d [:: 1])
  /\ sparse_twice (exact rat) (array1d [:: 2]) 1 1 = Some (array1d [:: 0])
  /\ sparse_twice (exact rat) (array1d [:: 2]) 1 1
     <> sparse (exact rat) (array1d [:: 2]) 1 1.
Proof.
have e3 : sparse (exact rat) (array1d [:: 3]) 1 1 = Some (array1d [:: 2]).
  by rewrite sparseE.
have e2 : sparse (exact rat) (array1d [:: 2]) 1 1 = Some (array1d [:: 1]).
  by rewrite sparseE.
have e1 : sparse (exact rat) (array1d [:: 1]) 1 1 = Some (array1d [:: 0]).
  by rewrite sparseE.
by rewrite /sparse_twice e3 e2 e1.
Qed.

(** The same run in binary64. *)
Example sparse_twice_float64 :
  sparse float64 (array1d [:: 3%float]) 1%float 1%float
    = Some (array1d [:: 2%float])
  /\ sparse float64 (array1d [:: 2%float]) 1%float 1%float
    = Some (array1d [:: 1%float])
  /\ sparse_twice float64 (array1d [:: 2%float]) 1%float 1%float
    = Some (array1d [:: 0%float]).
Proof. by vm_compute. Qed.

(** ** Distances and objectives *)

Section Objectives.

Variable F : realFieldType.
Implicit Types (a b x : ndarray F) (rho : F).

Lemma same_shape_size (T U : Type) (u : ndarray T) (v : ndarray U) :
  same_shape u v -> arr_size u = arr_size v.
Proof. by case/andP=> _ /eqP. Qed.

Lemma sqdist_ge0 a b : 0 <= sqdist a b.
Proof. by apply: sumr_ge0 => i _; apply: sqr_ge0. Qed.

Lemma nonneg_entry (x0 : ndarray F) rho (i : nat) :
  (i < arr_size x0)%N ->
  nth 0 (data (nonneg (exact F) x0 rho)) i = Num.max (nth 0 (data x0) i) 0.
Proof. by move=> lt_i; rewrite /nonneg /np_maximum /= (nth_map 0). Qed.

Lemma nonneg_closest (x0 : ndarray F) rho (y : ndarray F) :
  arr_size y = arr_size x0 -> nonnegative y ->
  sqdist (nonneg (exact F) x0 rho) x0 <= sqdist y x0.
Proof.
move=> size_y /all_nthP-/(_ 0) y_ge0.
rewrite /sqdist {1}/arr_size /= size_map -/(arr_size x0) size_y.
apply: ler_sum_nat => i /andP[_ lt_i]; rewrite nonneg_entry //.
have := y_ge0 i; rewrite -/(arr_size y) size_y lt_i => /(_ isT).
move: (nth 0 (data x0) i) (nth 0 (data y) i) => x v v_ge0.
rewrite /Num.max; case: ltrP => x_lt0; last by rewrite subrr expr0n sqr_ge0.
have : 0 <= v * (v - 2 * x) by apply: mulr_ge0 => //; lra.
by rewrite !expr2; lra.
Qed.

End Objectives.

(** C4. [nonneg x0 rho] is the elementwise maximum of [x0] and [0], whatever
    [rho] is: it has the shape of [x0], its entries are [max x 0], it does
    not depend on [rho], it is a total function (no error), and it is the
    projection of [x0] onto the non-negative orthant, the non-negative array
    closest to [x0]. *)
Theorem nonneg_projection (F : realFieldType) (x0 : ndarray F) (rho : F) :
  nonneg (exact F) x0 rho = arr_map (fun x => Num.max x 0) x0
  /\ (forall rho', nonneg (exact F) x0 rho' = nonneg (exact F) x0 rho)
  /\ nonnegative (nonneg (exact F) x0 rho)
  /\ (forall y : ndarray F, arr_size y = arr_size x0 -> nonnegative y ->
        sqdist (nonneg (exact F) x0 rho) x0 <= sqdist y x0).
Proof.
split=> //; split=> //; split; last exact: nonneg_closest.
apply/allP => v /mapP[x _ ->] /=.
by rewrite le_max lexx orbT.
Qed.

(** [[0, 2]], the projection of [[-1, 2]], is closer to it than the
    non-negative [[1, 3]]. *)
Lemma nonneg_projection_example :
  sqdist (nonneg (exact rat) (array1d [:: -1; 2]) 5) (array1d [:: -1; 2])
  <= sqdist (array1d [:: 1; 3]) (array1d [:: -1; 2]).
Proof.
by have [_ [_ [_]]] := nonneg_projection (array1d [:: -1; 2 : rat]) 5; apply.
Defined.

(** The scenario of the specification,
    [nonneg([-1.0, 2.0, 0.0], rho=5.0) = [0.0, 2.0, 0.0]]. *)
Example nonneg_scenario :
  nonneg (exact rat) (array1d [:: -1; 2; 0]) 5 = array1d [:: 0; 2; 0].
Proof. by []. Qed.

Example nonneg_scenario_float64 :
  nonneg float64 (array1d [:: -1; 2; 0]%float) 5%float
  = array1d [:: 0; 2; 0]%float.
Proof. by vm_compute. Qed.

(** ** Squared error *)

Section SquaredError.

Variable F : realFieldType.
Implicit Types (a b x rho : F).

Lemma zip_mapr (T U V : Type) (f : U -> V) (s : seq T) (t : seq U) :
  zip s (map f t) = [seq (p.1, f p.2) | p <- zip s t].
Proof. by elim: s t => [|u s IHs] [|v t] //=; rewrite IHs. Qed.

Lemma map_zipC (T U V : Type) (f : T * U -> V) (s : seq T) (t : seq U) :
  [seq f p | p <- zip s t] = [seq f (p.2, p.1) | p <- zip t s].
Proof. by elim: s t => [|u s IHs] [|v t] //=; rewrite IHs. Qed.

Lemma same_shapeC (T U : Type) (u : ndarray T) (v : ndarray U) :
  same_shape v u = same_shape u v.
Proof. by rewrite /same_shape ![_ == shape u]eq_sym ![_ == size (data u)]eq_sym. Qed.

Lemma squared_errorE (x0 : ndarray F) rho (x_obs : ndarray F) :
  same_shape x0 x_obs ->
  squared_error (exact F) x0 rho x_obs =
  Some (NDArray (shape x0)
          [seq weighted_average rho p.1 p.2 | p <- zip (data x0) (data x_obs)]).
Proof.
move=> sh; rewrite /squared_error /add /div_scalar /arr_map2.
have -> : same_shape x0 (arr_map (divide (exact F) ^~ rho) x_obs).
  by move: sh; rewrite /same_shape /= size_map.
by rewrite /arr_map /= zip_mapr -!map_comp.
Qed.

Lemma weighted_average_min rho a b x :
  0 < rho ->
  (weighted_average rho a b - b) ^+ 2 / 2
    + rho / 2 * (weighted_average rho a b - a) ^+ 2
  <= (x - b) ^+ 2 / 2 + rho / 2 * (x - a) ^+ 2.
Proof.
move=> rho_gt0; set r := weighted_average rho a b.
have r_def : r * (1 + rho) = rho * a + b.
  have rho1_gt0 : 0 < rho + 1 by lra.
  by rewrite /r /weighted_average; field?; rewrite ?lt0r_neq0.
have sq_ge0 : 0 <= (1 + rho) / 2 * (x - r) ^+ 2.
  by apply: mulr_ge0; [lra | apply: sqr_ge0].
rewrite -subr_ge0.
have -> : (x - b) ^+ 2 / 2 + rho / 2 * (x - a) ^+ 2
          - ((r - b) ^+ 2 / 2 + rho / 2 * (r - a) ^+ 2)
          = (1 + rho) / 2 * (x - r) ^+ 2
            + (x - r) * (r * (1 + rho) - (rho * a + b)) by field.
by rewrite r_def subrr mulr0 addr0.
Qed.

Lemma weighted_averageC rho a b :
  rho != 0 -> rho != -1 ->
  weighted_average rho a b = weighted_average (1 / rho) b a.
Proof.
move=> rho_neq0 rho_neqN1; rewrite /weighted_average.
have rho1_neq0 : rho + 1 != 0 by rewrite addr_eq0.
by field?; rewrite // addrC.
Qed.

Lemma squared_error_objectiveE (x0 : ndarray F) rho (x_obs x : ndarray F) :
  squared_error_objective x0 rho x_obs x =
  \sum_(0 <= i < arr_size x)
     ((nth 0 (data x) i - nth 0 (data x_obs) i) ^+ 2 / 2
      + rho / 2 * (nth 0 (data x) i - nth 0 (data x0) i) ^+ 2).
Proof.
by rewrite /squared_error_objective /sqdist mulr_suml mulr_sumr -big_split.
Qed.

Lemma squared_error_min (x0 : ndarray F) rho (x_obs x : ndarray F) :
  0 < rho -> same_shape x0 x_obs -> arr_size x = arr_size x0 ->
  squared_error_objective x0 rho x_obs
    (NDArray (shape x0)
       [seq weighted_average rho p.1 p.2 | p <- zip (data x0) (data x_obs)])
  <= squared_error_objective x0 rho x_obs x.
Proof.
move=> rho_gt0 /same_shape_size; rewrite /arr_size => size_obs size_x.
rewrite !squared_error_objectiveE /arr_size /= size_map size_zip -size_obs.
rewrite minnn size_x; apply: ler_sum_nat => i /andP[_ lt_i].
rewrite (nth_map (0, 0)) ?size_zip -?size_obs ?minnn // nth_zip //=.
exact: weighted_average_min.
Qed.

End SquaredError.

(** C5. For positive [rho] and [x_obs] of the shape of [x0],
    [squared_error x0 rho x_obs] is the array of the entries
    [(x0 + x_obs / rho) / (1 + 1 / rho)], and it minimises
    [||x - x_obs||^2 / 2 + (rho / 2) ||x - x0||^2] over the arrays [x] of
    that size. *)
Theorem squared_error_minimizer (F : realFieldType) (x0 : ndarray F)
    (rho : F) (x_obs : ndarray F) :
  0 < rho -> same_shape x0 x_obs ->
  exists2 r : ndarray F,
    squared_error (exact F) x0 rho x_obs = Some r
    & [/\ shape r = shape x0,
          data r = [seq (p.1 + p.2 / rho) / (1 + 1 / rho)
                   | p <- zip (data x0) (data x_obs)]
        & forall x : ndarray F, arr_size x = arr_size x0 ->
            squared_error_objective x0 rho x_obs r
            <= squared_error_objective x0 rho x_obs x].
Proof.
move=> rho_gt0 sh; rewrite squared_errorE //.
eexists; first by reflexivity.
by split=> // x size_x; apply: squared_error_min.
Qed.

(** The scenario of the specification,
    [squared_error(x0=[1.0], rho=1.0, x_obs=[3.0]) = [2.0]]. *)
Lemma squared_error_minimizer_scenario :
  squared_error (exact rat) (array1d [:: 1]) 1 (array1d [:: 3])
  = Some (array1d [:: 2]).
Proof.
have [r -> [sh_r data_r _]] :=
  @squared_error_minimizer rat (array1d [:: 1]) 1 (array1d [:: 3]) isT isT.
by case: r sh_r data_r => sh d /= -> ->.
Defined.

Example squared_error_scenario_float64 :
  squared_error float64 (array1d [:: 1%float]) 1%float (array1d [:: 3%float])
  = Some (array1d [:: 2%float]).
Proof. by vm_compute. Qed.

(** C10 (as amended). For [rho] other than [0] and [-1] and [x_obs] of the
    shape of [x0], no divisor of either call is zero, and
    [squared_error x0 rho x_obs] is [squared_error x_obs (1 / rho) x0]. *)
Theorem squared_error_duality (F : realFieldType) (x0 : ndarray F)
    (rho : F) (x_obs : ndarray F) :
  rho != 0 -> rho != -1 -> same_shape x0 x_obs ->
  [/\ rho != 0, 1 + 1 / rho != 0, 1 / rho != 0 & 1 + 1 / (1 / rho) != 0]
  /\ squared_error (exact F) x0 rho x_obs
     = squared_error (exact F) x_obs (1 / rho) x0.
Proof.
move=> rho_neq0 rho_neqN1 sh.
have rho1_neq0 : rho + 1 != 0 by rewrite addr_eq0.
split.
  have -> : 1 + 1 / rho = (rho + 1) / rho by field?.
  have -> : 1 + 1 / (1 / rho) = rho + 1 by field?.
  by rewrite mulf_neq0 ?div1r ?invr_eq0.
rewrite !squared_errorE // 1?same_shapeC //.
case/andP: (sh) => /eqP-> _; congr (Some (NDArray _ _)).
rewrite [RHS]map_zipC /=; apply: eq_map => p.
exact: weighted_averageC.
Qed.

Lemma squared_error_duality_scenario :
  squared_error (exact rat) (array1d [:: 1]) 2 (array1d [:: 4])
  = squared_error (exact rat) (array1d [:: 4]) (1 / 2) (array1d [:: 1]).
Proof.
exact: (proj2 (@squared_error_duality rat (array1d [:: 1]) 2
                 (array1d [:: 4]) isT isT isT)).
Defined.

(** C10 fails as stated at the nonzero [rho = -1]: there [1 + 1 / rho] is
    zero, and numpy's division by it gives [inf] on one side and [-inf] on
    the other. *)
Lemma squared_error_duality_fails :
  [/\ (1 + 1 / (-1) == 0 :> rat),
      squared_error float64 (array1d [:: 1%float]) (-1)%float
        (array1d [:: 0%float]) = Some (array1d [:: infinity]),
      squared_error float64 (array1d [:: 0%float]) (1 / (-1))%float
        (array1d [:: 1%float]) = Some (array1d [:: neg_infinity])
    & squared_error float64 (array1d [:: 1%float]) (-1)%float
        (array1d [:: 0%float])
      <> squared_error float64 (array1d [:: 0%float]) (1 / (-1))%float
           (array1d [:: 1%float])].
Proof.
split=> //; try by vm_compute.
Qed.

(** ** Linear systems *)

Section Solvers.

Variable F : realFieldType.

Lemma det_unitmx n (a : 'M[F]_n) : (a \in unitmx) = (\det a != 0).
Proof. by rewrite unitmxE unitfE. Qed.

Lemma invmx_solves n (a : 'M[F]_n) (b : 'cV[F]_n) :
  a \in unitmx ->
  a *m (invmx a *m b) = b /\ forall y, a *m y = b -> y = invmx a *m b.
Proof.
move=> a_unit; split; first by rewrite mulmxA mulmxV // mul1mx.
by move=> y <-; rewrite mulKmx.
Qed.

Lemma linsys_system n (x0 : 'cV[F]_n) rho (P : 'M[F]_n) (q : 'cV[F]_n) :
  linsys x0 rho P q = np_linalg_solve (rho%:M + P) (rho *: x0 + q).
Proof. by rewrite /linsys /eye scalemx1. Qed.

End Solvers.

(** C6. [linsys x0 rho P q] solves [(rho I + P) x = rho x0 + q]: when
    [rho I + P] is invertible it returns the solution (the only one), and
    when [rho I + P] is singular it raises numpy's [LinAlgError]. *)
Theorem linsys_solves (F : realFieldType) n (x0 : 'cV[F]_n) (rho : F)
    (P : 'M[F]_n) (q : 'cV[F]_n) :
  (\det (rho%:M + P) != 0 ->
     exists2 x, linsys x0 rho P q = Returns x
              & (rho%:M + P) *m x = rho *: x0 + q
                /\ forall y, (rho%:M + P) *m y = rho *: x0 + q -> y = x)
  /\ (\det (rho%:M + P) = 0 -> linsys x0 rho P q = Raises LinAlgError).
Proof.
rewrite linsys_system /np_linalg_solve det_unitmx; split=> [det_neq0|->].
  rewrite det_neq0; eexists; first by reflexivity.
  by apply: invmx_solves; rewrite det_unitmx.
by rewrite eqxx.
Qed.

(** A system that is solved: [rho = 1], [P = 3 I], [q = (3, 3)],
    [x0 = (1, 1)] give [4 x = (4, 4)], solved by [x = (1, 1)]. *)
Lemma linsys_solves_example :
  linsys (const_mx 1 : 'cV[rat]_2) 1 (3%:M) (const_mx 3) = Returns (const_mx 1).
Proof.
have [] := @linsys_solves rat 2 (const_mx 1) 1 (3%:M) (const_mx 3).
have -> : 1%:M + 3%:M = 4%:M :> 'M[rat]_2 by rewrite -raddfD.
rewrite det_scalar => /(_ isT) [x -> [_ uniq]] _; congr Returns.
apply/esym/uniq; rewrite mul_scalar_mx scale1r.
by apply/matrixP=> i j; rewrite !mxE.
Defined.

(** A singular system: [rho = 1], [P = - I]. *)
Lemma linsys_singular_example :
  linsys (const_mx 1 : 'cV[rat]_2) 1 (- 1%:M) (const_mx 3) = Raises LinAlgError.
Proof.
by rewrite linsys_system /np_linalg_solve det_unitmx subrr det0 eqxx.
Qed.

(** ** The smoothing operator *)

Section Laplacian.

Variable F : realFieldType.
Implicit Types (rho gamma : F).

Lemma diag_offset0 (i j : nat) : (j%:Z - i%:Z == 0) = (i == j).
Proof. by rewrite subr_eq0 eqz_nat eq_sym. Qed.

Lemma diag_offset1 (i j : nat) : (j%:Z - i%:Z == 1) = (i.+1 == j).
Proof. by rewrite subr_eq -[1]/(1%:Z) -PoszD eqz_nat add1n eq_sym. Qed.

Lemma diag_offsetN1 (i j : nat) : (j%:Z - i%:Z == -1) = (j.+1 == i).
Proof.
by rewrite -diag_offset1 -(inj_eq oppr_inj) opprB opprK.
Qed.

Lemma nth_scale_ones n (c : F) (j : nat) :
  (j < n)%N -> nth 0 (scale_seq c (ones F n)) j = c.
Proof.
by move=> lt_j; rewrite (nth_map 0) ?size_nseq // nth_nseq lt_j mulr1.
Qed.

Lemma lap_opE n rho gamma : lap_op n rho gamma = tridiagonal n (2 + rho / gamma).
Proof.
apply/matrixP=> i j; rewrite /lap_op /spdiags !mxE /=.
rewrite !big_cons big_nil /= !nth_scale_ones //.
rewrite diag_offset0 diag_offset1 diag_offsetN1.
case: (altP (i =P j)) => [->|neq_ij].
  by rewrite eqxx (gtn_eqF (ltnSn j)) addr0.
have /negbTE-> : (i : nat) != j by [].
case: (altP (j.+1 =P i)) => [eq1|_]; case: (altP (i.+1 =P j)) => [eq2|_];
  rewrite /= ?addr0 //.
by move: (ltnSn i); rewrite -{1}eq1 -eq2 ltnS ltnNge leqnSn.
Qed.

(** A strictly diagonally dominant matrix has a trivial kernel... *)
Lemma diag_dominant_ker n (A : 'M[F]_n) (x : 'cV[F]_n) :
  (forall i, \sum_(j | j != i) `|A i j| < `|A i i|) ->
  A *m x = 0 -> x = 0.
Proof.
move=> dom Ax0; apply/colP=> i; rewrite [RHS]mxE.
pose im := [arg max_(k > i) `|x k 0|]%O.
have max_im k : `|x k 0| <= `|x im 0|.
  by rewrite /im; case: arg_maxP => // m _; apply.
have /(congr1 (fun y : 'cV_n => y im 0)) := Ax0.
rewrite !mxE (bigD1 im) //= => /eqP; rewrite addr_eq0 => /eqP eq_im.
have bound : `|A im im| * `|x im 0|
             <= (\sum_(j | j != im) `|A im j|) * `|x im 0|.
  rewrite -normrM eq_im normrN mulr_suml.
  apply: le_trans (ler_norm_sum _ _ _) _; apply: ler_sum => j _.
  by rewrite normrM ler_wpM2l.
have x_im0 : `|x im 0| <= 0.
  have := dom im; have := normr_ge0 (x im 0).
  rewrite le_eqVlt => /orP[/eqP<- //|x_gt0 lt_dom].
  by move: bound; rewrite ler_pM2r // leNgt lt_dom.
by apply/eqP; rewrite -normr_le0 (le_trans (max_im i)).
Qed.

(** ... so it is invertible. *)
Lemma diag_dominant_unitmx n (A : 'M[F]_n) :
  (forall i, \sum_(j | j != i) `|A i j| < `|A i i|) -> A \in unitmx.
Proof.
move=> dom; rewrite -unitmx_tr -row_free_unit -kermx_eq0.
apply/eqP/row_matrixP=> k; rewrite row0.
apply: trmx_inj; rewrite trmx0; apply: (diag_dominant_ker dom).
by apply: trmx_inj; rewrite trmx_mul trmxK trmx0 -row_mul mulmx_ker row0.
Qed.

Lemma sum_at_most_one (I : finType) (P : pred I) (c : F) :
  0 <= c -> (forall j k, P j -> P k -> j = k) -> \sum_(j | P j) c <= c.
Proof.
move=> c_ge0 uniqP; case: (pickP P) => [j0 Pj0|P0]; last by rewrite big_pred0.
rewrite (bigD1 j0) //= big1 ?addr0 // => k /andP[Pk].
by rewrite (uniqP k j0 Pk Pj0) eqxx.
Qed.

Lemma tridiagonal_off_diag n (d gamma : F) (i : 'I_n) :
  0 <= gamma ->
  \sum_(j | j != i) `|(gamma *: tridiagonal n d) i j| <= 2 * gamma.
Proof.
move=> gamma_ge0; rewrite big_mkcond /=.
have le_j (j : 'I_n) :
    (if j != i then `|(gamma *: tridiagonal n d) i j| else 0)
    <= (if (i.+1 == j :> nat) then gamma else 0)
       + (if (j.+1 == i :> nat) then gamma else 0).
  rewrite !mxE [i == j]eq_sym.
  case: (j == i); case: (i.+1 == j :> nat); case: (j.+1 == i :> nat);
    rewrite /= ?mulr0 ?mulrN1 ?normrN ?normr0 ?ger0_norm //; lra.
apply: le_trans (ler_sum _ (fun j _ => le_j j)) _.
rewrite big_split /= -!big_mkcond /= mulr2n mulrDl mul1r.
apply: lerD; apply: sum_at_most_one => // j k /eqP ej /eqP ek; apply: val_inj.
  by rewrite /= -ej -ek.
by apply: succn_inj; rewrite ej ek.
Qed.

Lemma smooth_system_unit n rho gamma :
  0 < rho -> 0 < gamma -> gamma *: lap_op n rho gamma \in unitmx.
Proof.
move=> rho_gt0 gamma_gt0; rewrite lap_opE; apply: diag_dominant_unitmx => i.
apply: le_lt_trans (tridiagonal_off_diag _ _ (ltW gamma_gt0)) _.
rewrite !mxE eqxx.
have -> : gamma * (2 + rho / gamma) = 2 * gamma + rho by field?; rewrite gt_eqF.
by rewrite gtr0_norm; lra.
Qed.

End Laplacian.

(** C7. For positive [rho] and [gamma] and [x0] of length [n], the matrix
    [smooth] builds is the [n] by [n] tridiagonal matrix with
    [2 + rho / gamma] on the diagonal and [-1] on the first sub- and
    super-diagonals, and [smooth x0 rho gamma] returns the solution (the
    only one) of [gamma L x = rho x0]. *)
Theorem smooth_solves (F : realFieldType) n (x0 : 'cV[F]_n) (rho gamma : F) :
  0 < rho -> 0 < gamma ->
  lap_op n rho gamma = tridiagonal n (2 + rho / gamma)
  /\ exists2 x, smooth x0 rho gamma = Returns x
              & gamma *: lap_op n rho gamma *m x = rho *: x0
                /\ forall y, gamma *: lap_op n rho gamma *m y = rho *: x0 ->
                     y = x.
Proof.
move=> rho_gt0 gamma_gt0; split; first exact: lap_opE.
rewrite /smooth /spsolve smooth_system_unit //.
eexists; first by reflexivity.
by apply: invmx_solves; apply: smooth_system_unit.
Qed.

(** With [rho = gamma = 1] and [n = 2] the system is
    [[3 -1; -1 3] x = x0]: [x0 = (2, 2)] is smoothed to [(1, 1)]. *)
Lemma smooth_solves_example :
  smooth (const_mx 2 : 'cV[rat]_2) 1 1 = Returns (const_mx 1).
Proof.
have [-> [x -> [_ uniq]]] :=
  @smooth_solves rat 2 (const_mx 2) 1 1 isT isT.
congr Returns; apply/esym/uniq/matrixP=> i j.
rewrite !scale1r !mxE !big_ord_recl big_ord0 !mxE /=.
by case: i => [[|[|i]]] //= lt_i; rewrite ?mulr1 ?addr0.
Defined.

(** ** Nuclear norm *)

Section NuclearNorm.

Variable F : realFieldType.

Lemma shrink_ge0 (lam sigma : F) : 0 <= shrink lam sigma.
Proof. by rewrite /shrink le_max lexx orbT. Qed.

Lemma mul_diag_mul m k n (u : 'M[F]_(m, k)) (d : 'rV[F]_k) (v : 'M[F]_(k, n))
    i j :
  (u *m diag_mx d *m v) i j = \sum_l u i l * d 0 l * v l j.
Proof. by rewrite mxE; apply: eq_bigr => l _; rewrite mul_mx_diag mxE. Qed.

End NuclearNorm.

(** C8. With [u, s, v] the factors the SVD routine returns for [x0] ([v] is
    the transposed right factor [V^T]), [nucnorm x0 rho gamma] is
    [u diag(s') v] where [s'_k = max(s_k - gamma / rho, 0)]: entry [(i, j)]
    is the sum of the [u_ik s'_k v_kj], and no [s'_k] is negative. *)
Theorem nucnorm_shrinks (F : realFieldType) (svd : svd_type F) m n
    (x0 : 'M[F]_(m, n)) (rho gamma : F) :
  let u := (svd m n x0).1.1 in
  let s := (svd m n x0).1.2 in
  let v := (svd m n x0).2 in
  let s' := \row_k shrink (gamma / rho) (s 0 k) in
  [/\ nucnorm svd x0 rho gamma = u *m diag_mx s' *m (v^T)^T,
      forall i j,
        nucnorm svd x0 rho gamma i j = \sum_k u i k * s' 0 k * v k j
    & forall k, 0 <= s' 0 k].
Proof.
rewrite /nucnorm; case: (svd m n x0) => [[u s] v] /=.
have -> : map_mx (fun sigma => Num.max (sigma - gamma / rho) 0) s
          = \row_k shrink (gamma / rho) (s 0 k).
  by apply/rowP=> k; rewrite !mxE.
split=> [|i j|k]; first by rewrite trmxK.
  exact: mul_diag_mul.
by rewrite mxE shrink_ge0.
Qed.

(** [diag(3, 1/2)] with [rho = gamma = 1]: the singular values [3] and
    [1/2] shrink to [2] and [0]. *)
Lemma nucnorm_shrinks_example :
  nucnorm (@diagonal_svd rat)
    (diag_mx (\row_(j < 2) (if j == 0 then 3 else 1 / 2)) : 'M[rat]_2) 1 1
  = diag_mx (\row_(j < 2) (if j == 0 then 2 else 0)).
Proof.
apply/matrixP=> i j.
have [_ -> _] := nucnorm_shrinks (@diagonal_svd rat)
  (diag_mx (\row_(j < 2) (if j == 0 then 3 else 1 / 2)) : 'M[rat]_2) 1 1.
rewrite /diagonal_svd /= !big_ord_recl big_ord0 !mxE /=.
by case: i => [[|[|i]]] //= lt_i; case: j => [[|[|j]]] //= lt_j;
   rewrite !mxE /= /shrink.
Defined.

(** ** The optimizer adapter *)

(** C9. Run on any optimizer object, [sfo x0 rho num_steps] makes four
    calls, in this order and no other: [set_theta(x0, rho)],
    [theta_original_to_flat(x0)], the assignment of that flat vector to
    [theta_admm_prev], and [optimize(num_steps)] ([optimize(50)] when
    [num_steps] is not given); it returns what [optimize] returns.  The
    assignment changes [theta_admm_prev] and nothing else of the object,
    and with an optimizer that takes one step per iteration the object ends
    exactly [num_steps] steps after the assignment. *)
Theorem sfo_effects (F : realFieldType) (S : Type) (opt : optimizer F S)
    (x0 : ndarray F) (rho : F) (num_steps : option nat) (o : object F S) :
  let n := odflt 50%N num_steps in
  let o1 := set_theta opt x0 rho o in
  let flat := (theta_original_to_flat opt x0 o1).1 in
  let o2 := (theta_original_to_flat opt x0 o1).2 in
  let o3 := Object (Some flat) (attrs o2) in
  let theta := (optimize opt n o3).1 in
  let o4 := (optimize opt n o3).2 in
  [/\ run opt (sfo x0 rho num_steps) o
      = (theta, o4,
         [:: Event (SetTheta x0 rho) tt;
             Event (ThetaOriginalToFlat x0) flat;
             Event (AssignThetaAdmmPrev flat) tt;
             Event (Optimize F n) theta]),
      theta_admm_prev o3 = Some flat /\ attrs o3 = attrs o2
    & forall step current,
        optimize opt = optimize_by_steps step current ->
        o4 = iter n step o3 /\ theta = current o4].
Proof.
rewrite /=; split=> // [|step current opt_steps].
  case: (theta_original_to_flat _ _ _) => flat o2 /=.
  by case: (optimize _ _ _).
by rewrite opt_steps.
Qed.

(** With the default [num_steps] the counting optimizer has taken 50 steps,
    from the object whose previous ADMM point is the flattened [x0]. *)
Lemma sfo_effects_counting :
  (run (counting_optimizer rat) (sfo (array1d [:: 1; 2]) 3 None)
       (Object None 0%N)).1
  = (array1d [:: 1; 2], Object (Some (array1d [:: 1; 2])) 50%N).
Proof.
have [-> _ _] :=
  sfo_effects (counting_optimizer rat) (array1d [:: 1; 2]) 3 None
              (Object None 0%N).
by [].
Defined.

(** ** Shapes *)

Section Shapes.

Variables (T : Type) (D : dtype T).

Lemma sparse_shape (x0 : ndarray T) rho gamma r :
  sparse D x0 rho gamma = Some r -> shape r = shape x0.
Proof.
rewrite /sparse /mul_mask /astype /sub_scalar /add_scalar /ge_scalar.
rewrite /le_scalar !arr_map_comp !arr_map2_map /add arr_map2_map.
by case=> <-.
Qed.

Lemma nonneg_shape (x0 : ndarray T) rho : shape (nonneg D x0 rho) = shape x0.
Proof. by []. Qed.

Lemma squared_error_shape (x0 : ndarray T) rho x_obs r :
  squared_error D x0 rho x_obs = Some r -> shape r = shape x0.
Proof.
rewrite /squared_error /add /arr_map2.
by case: ifP => // _ [<-].
Qed.

End Shapes.

Section DelegateShapes.

Variable F : realFieldType.

Lemma fmin_bfgs_shape (iterate : minimizer F) f x0 fprime r :
  fmin_bfgs iterate f x0 fprime = Some r ->
  shape r = [:: arr_size r]
  /\ (keeps_length iterate -> arr_size r = arr_size x0).
Proof.
rewrite /fmin_bfgs; case e: (iterate _ _ _) => [y|] //= [<-]; split=> //.
by move=> /(_ _ _ _ _ e).
Qed.

Lemma bfgs_shape (iterate : minimizer F) x0 rho f fgrad r :
  bfgs iterate x0 rho f fgrad = Some r ->
  shape r = [:: arr_size r]
  /\ (keeps_length iterate -> arr_size r = arr_size x0).
Proof. exact: fmin_bfgs_shape. Qed.

End DelegateShapes.

(** The operators on arrays: the shapes numpy's calls return, and the
    agreement with the operators on vectors and matrices. *)

Section ArrayShapes.

Variable F : realFieldType.

Lemma arr_map2_shape (T U V : Type) (f : T -> U -> V) (a : ndarray T)
    (b : ndarray U) r :
  arr_map2 f a b = Some r -> shape r = shape a.
Proof. by rewrite /arr_map2; case: ifP => // _ [<-]. Qed.

Lemma outcome_nd_shape n (o : outcome 'cV[F]_n) r :
  outcome_nd o = Returns r -> shape r = [:: n].
Proof. by case: o => //= x [<-]. Qed.

Lemma linsys_nd_shape (x0 : ndarray F) rho P q r :
  linsys_nd x0 rho P q = Some (Returns r) -> shape r = shape x0.
Proof.
rewrite /linsys_nd; case: (add _ _ P) => [a|] //=.
case b_def: (add _ _ q) => [b|] //=.
have <- : shape b = shape x0 by rewrite (arr_map2_shape b_def).
rewrite /np_linalg_solve_nd; case: (shape b) => [|n [|]] //.
by case: ifP => // _ [/outcome_nd_shape].
Qed.

Lemma smooth_nd_shape (x0 : ndarray F) rho gamma r :
  smooth_nd x0 rho gamma = Some (Returns r) -> shape r = shape x0.
Proof.
rewrite /smooth_nd; case sh: (shape x0) => [|n sh'] //.
rewrite /spsolve_nd /= sh; case: eqP => // -[->].
by case=> /outcome_nd_shape.
Qed.

Lemma dot_matrix_shape (x w r : ndarray F) m k n :
  shape x = [:: m; k] -> shape w = [:: k; n] -> dot x w = Some r ->
  shape r = [:: m; n].
Proof.
move=> sh_x sh_w; rewrite /dot sh_x sh_w eqseq_cons /= andbF eqxx.
by case=> <-.
Qed.

Lemma nucnorm_nd_shape svd (x0 : ndarray F) rho gamma r :
  nucnorm_nd svd x0 rho gamma = Some r -> shape r = shape x0.
Proof.
rewrite /nucnorm_nd /np_linalg_svd.
case sh: (shape x0) => [|m [|n [|]]] //.
case: (svd m n _) => [[u s] v] /=.
case ud_def: (dot _ _) => [ud|] //= r_def.
have sh_ud : shape ud = [:: m; minn m n] by apply: dot_matrix_shape ud_def.
exact: dot_matrix_shape sh_ud _ r_def.
Qed.

Lemma nth_allpairs (S T : Type) (s : seq S) (t : seq T) (xy : S * T) n i j :
  size t = n -> (i < size s)%N -> (j < n)%N ->
  nth xy (allpairs pair s t) (i * n + j) = (nth xy.1 s i, nth xy.2 t j).
Proof.
move=> size_t; elim: s i => [|x s IHs] [|i] //= lt_i lt_j.
  by rewrite mul0n add0n nth_cat size_map size_t lt_j (nth_map xy.2) ?size_t.
rewrite mulSn -addnA nth_cat size_map size_t ltnNge leq_addr /= addKn.
exact: IHs.
Qed.

Lemma nth_nd_of_mx m n (A : 'M[F]_(m, n)) (i : 'I_m) (j : 'I_n) :
  nth 0 (data (nd_of_mx A)) (i * n + j) = A i j.
Proof.
have lt_ij : (i * n + j < m * n)%N.
  apply: (@leq_trans (i.+1 * n)); last by rewrite leq_mul2r ltn_ord orbT.
  by rewrite mulSn [(n + _)%N]addnC ltn_add2l.
rewrite /nd_of_mx /= (nth_map (i, j)) ?size_allpairs ?size_enum_ord //.
by rewrite (@nth_allpairs _ _ _ _ _ n) ?size_enum_ord //= !nth_ord_enum.
Qed.

Lemma nd_of_mx_mkseq m n (A : 'M[F]_(m, n)) (f : nat -> F) :
  (forall (i : 'I_m) (j : 'I_n), f (i * n + j)%N = A i j) ->
  mkseq f (m * n) = data (nd_of_mx A).
Proof.
move=> fE; apply: (@eq_from_nth _ 0).
  by rewrite size_mkseq /= size_map size_allpairs !size_enum_ord.
move=> idx; rewrite size_mkseq => lt_idx; rewrite nth_mkseq //.
have n_gt0 : (0 < n)%N by case: n {A fE} lt_idx => //; rewrite muln0.
have lt_i : (idx %/ n < m)%N by rewrite ltn_divLR.
have lt_j : (idx %% n < n)%N by rewrite ltn_mod.
have -> : idx = (Ordinal lt_i * n + Ordinal lt_j)%N by rewrite /= -divn_eq.
by rewrite fE nth_nd_of_mx.
Qed.

Lemma col_of_ndK n (x : 'cV[F]_n) : col_of_nd n (nd_of_col x) = x.
Proof.
by apply/colP=> i; rewrite mxE /= (nth_map i) ?size_enum_ord // nth_ord_enum.
Qed.

Lemma row_of_ndK n (s : 'rV[F]_n) : row_of_nd n (nd_of_row s) = s.
Proof.
by apply/rowP=> j; rewrite mxE /= (nth_map j) ?size_enum_ord // nth_ord_enum.
Qed.

Lemma mx_of_ndK m n (A : 'M[F]_(m, n)) : mx_of_nd m n (nd_of_mx A) = A.
Proof. by apply/matrixP=> i j; rewrite mxE nth_nd_of_mx. Qed.

Lemma scale_nd_of_col n (rho : F) (x : 'cV[F]_n) :
  scale (exact F) rho (nd_of_col x) = nd_of_col (rho *: x).
Proof.
rewrite /scale /arr_map /nd_of_col /= -map_comp; congr NDArray.
by apply: eq_map => i /=; rewrite mxE.
Qed.

Lemma add_nd_of_col n (x y : 'cV[F]_n) :
  add (exact F) (nd_of_col x) (nd_of_col y) = Some (nd_of_col (x + y)).
Proof.
rewrite /add /arr_map2 /same_shape /= !size_map !eqxx /= zip_map_map.
rewrite -map_comp; congr (Some (NDArray _ _)).
by apply: eq_map => i /=; rewrite mxE.
Qed.

Lemma scale_nd_of_mx m n (rho : F) (A : 'M[F]_(m, n)) :
  scale (exact F) rho (nd_of_mx A) = nd_of_mx (rho *: A).
Proof.
rewrite /scale /arr_map /nd_of_mx /= -map_comp; congr NDArray.
by apply: eq_map => ij /=; rewrite mxE.
Qed.

Lemma add_nd_of_mx m n (A B : 'M[F]_(m, n)) :
  add (exact F) (nd_of_mx A) (nd_of_mx B) = Some (nd_of_mx (A + B)).
Proof.
rewrite /add /arr_map2 /same_shape /= !size_map !eqxx /= zip_map_map.
rewrite -map_comp; congr (Some (NDArray _ _)).
by apply: eq_map => ij /=; rewrite mxE.
Qed.

Lemma threshold_nd_of_row n (s : 'rV[F]_n) (lam : F) :
  np_maximum (exact F) (sub_scalar (exact F) (nd_of_row s) lam) 0
  = nd_of_row (map_mx (fun sigma => Num.max (sigma - lam) 0) s).
Proof.
rewrite /np_maximum /sub_scalar /arr_map /nd_of_row /= -!map_comp.
by congr NDArray; apply: eq_map => j /=; rewrite mxE.
Qed.

Lemma np_diag_nd_of_row n (s : 'rV[F]_n) :
  np_diag (nd_of_row s) = Some (nd_of_mx (diag_mx s)).
Proof. by rewrite /np_diag /= row_of_ndK. Qed.

Lemma dot_nd_of_mx m k n (A : 'M[F]_(m, k)) (B : 'M[F]_(k, n)) :
  dot (nd_of_mx A) (nd_of_mx B) = Some (nd_of_mx (A *m B)).
Proof.
rewrite /dot /= eqseq_cons /= andbF eqxx; congr (Some (NDArray _ _)).
apply: nd_of_mx_mkseq => i j.
have n_gt0 : (0 < n)%N by exact: leq_ltn_trans (leq0n j) (ltn_ord j).
rewrite mxE big_mkord divnMDl // modnMDl divn_small ?modn_small // addn0.
by apply: eq_bigr => l _; rewrite !nth_nd_of_mx.
Qed.

(** On the arrays of a vector [x0], a matrix [P] and a vector [q] of one
    dimension the array operators are defined, and are the operators on
    the vectors and matrices. *)
Lemma linsys_nd_refines n (x0 : 'cV[F]_n) rho (P : 'M[F]_n) (q : 'cV[F]_n) :
  linsys_nd (nd_of_col x0) rho (nd_of_mx P) (nd_of_col q)
  = Some (outcome_nd (linsys x0 rho P q)).
Proof.
rewrite /linsys_nd /np_eye /copy /arr_size /= size_map size_enum_ord.
rewrite scale_nd_of_mx add_nd_of_mx /= scale_nd_of_col add_nd_of_col /=.
by rewrite /np_linalg_solve_nd /= eqxx mx_of_ndK col_of_ndK.
Qed.

Lemma smooth_nd_refines n (x0 : 'cV[F]_n) rho gamma :
  smooth_nd (nd_of_col x0) rho gamma = Some (outcome_nd (smooth x0 rho gamma)).
Proof.
rewrite /smooth_nd /= scale_nd_of_col /spsolve_nd /= eqxx.
by rewrite col_of_ndK.
Qed.

Lemma nucnorm_nd_refines svd m n (x0 : 'M[F]_(m, n)) rho gamma :
  nucnorm_nd svd (nd_of_mx x0) rho gamma
  = Some (nd_of_mx (nucnorm svd x0 rho gamma)).
Proof.
rewrite /nucnorm_nd /np_linalg_svd /= mx_of_ndK /nucnorm.
case: (svd m n x0) => [[u s] v] /=.
by rewrite threshold_nd_of_row row_of_ndK dot_nd_of_mx /= dot_nd_of_mx.
Qed.

End ArrayShapes.

(** C3 (as amended).  Every operator other than the adapters of an
    external optimizer returns an array of the shape of [x0]: [sparse],
    [nonneg] and [squared_error] (on [x_obs] of the shape of [x0]);
    [tvd], whose denoiser keeps the shape of the image it is given;
    [linsys], [smooth] and [nucnorm], by numpy's rules for the shapes of
    the sum, the solve, the factors of the SVD and the product.  Of the
    adapters, [bfgs] and [poissreg] return the minimiser's parameter
    vector, a one-dimensional array; the minimiser keeps the number of
    parameters, so it has [x0.size] entries, and the shape of [x0] exactly
    when [x0] is one-dimensional; and [sfo] returns the array the
    optimizer's [optimize] returns. *)
Theorem operators_shape (F : realFieldType) :
  [/\ forall T (D : dtype T) x0 rho gamma r,
        sparse D x0 rho gamma = Some r -> shape r = shape x0,
      forall T (D : dtype T) x0 rho, shape (nonneg D x0 rho) = shape x0,
      forall T (D : dtype T) x0 rho x_obs r,
        squared_error D x0 rho x_obs = Some r -> shape r = shape x0
    & forall denoise (x0 : ndarray F) rho gamma,
        (forall a w, shape (denoise a w) = shape a) ->
        shape (tvd denoise x0 rho gamma) = shape x0]
  /\ [/\ forall (x0 : ndarray F) rho P q r,
           linsys_nd x0 rho P q = Some (Returns r) -> shape r = shape x0,
         forall (x0 : ndarray F) rho gamma r,
           smooth_nd x0 rho gamma = Some (Returns r) -> shape r = shape x0
       & forall svd (x0 : ndarray F) rho gamma r,
           nucnorm_nd svd x0 rho gamma = Some r -> shape r = shape x0]
  /\ [/\ forall iterate (x0 : ndarray F) rho f fgrad r,
           bfgs iterate x0 rho f fgrad = Some r ->
           shape r = [:: arr_size r]
           /\ (keeps_length iterate ->
               shape r = [:: arr_size x0]
               /\ (shape r = shape x0 <-> shape x0 = [:: arr_size x0])),
         forall iterate exp (x0 : ndarray F) rho x y r,
           poissreg iterate exp x0 rho x y = Some r ->
           shape r = [:: arr_size r]
           /\ (keeps_length iterate ->
               shape r = [:: arr_size x0]
               /\ (shape r = shape x0 <-> shape x0 = [:: arr_size x0]))
       & forall S (opt : optimizer F S) x0 rho num_steps o,
           exists o',
             (run opt (sfo x0 rho num_steps) o).1.1
             = (optimize opt (odflt 50%N num_steps) o').1].
Proof.
have delegate iterate (x0 r : ndarray F) rho f fgrad :
    bfgs iterate x0 rho f fgrad = Some r ->
    shape r = [:: arr_size r]
    /\ (keeps_length iterate ->
        shape r = [:: arr_size x0]
        /\ (shape r = shape x0 <-> shape x0 = [:: arr_size x0])).
  move=> /bfgs_shape[sh_r size_r]; split=> // /size_r size_rE.
  by rewrite sh_r size_rE; split=> //; split=> [<-|->].
split; last split; split.
- exact: sparse_shape.
- by [].
- exact: squared_error_shape.
- by move=> denoise x0 rho gamma keeps; rewrite /tvd keeps.
- exact: linsys_nd_shape.
- exact: smooth_nd_shape.
- exact: nucnorm_nd_shape.
- by move=> iterate x0 rho f fgrad r; apply: delegate.
- move=> iterate exp x0 rho x y r; rewrite /poissreg.
  by case: (shape x) => // rows _; apply: delegate.
- move=> S opt x0 rho num_steps o; rewrite /sfo /=.
  case: (theta_original_to_flat _ _ _) => flat o2 /=.
  by exists (Object (Some flat) (attrs o2)); case: (optimize _ _ _).
Qed.

Lemma operators_shape_1d :
  exists2 r : ndarray rat,
    bfgs (@stationary_start rat) (array1d [:: 1; 2]) 1 (fun=> Some 0)
         (fun=> Some (zeros rat [:: 2%N])) = Some r
  & shape r = shape (array1d [:: 1; 2 : rat]).
Proof.
have run : bfgs (@stationary_start rat) (array1d [:: 1; 2]) 1 (fun=> Some 0)
             (fun=> Some (zeros rat [:: 2%N])) = Some (array1d [:: 1; 2]).
  by rewrite /bfgs /fmin_bfgs /stationary_start /reshape /zeros /= !unlock.
exists (array1d [:: 1; 2]); first exact: run.
have [_ [_ [/(_ _ _ _ _ _ _ run)[_ flat] _ _]]] := operators_shape rat.
have keeps : keeps_length (@stationary_start rat).
  move=> f fprime x y; rewrite /stationary_start.
  by case: (fprime x) => // g; case: ifP => // _ [->].
by have [_ [_ ->]] := flat keeps.
Defined.

(** C3 fails as stated on a two-dimensional [x0]: [bfgs] returns the
    flattened vector of four parameters, not a 2 by 2 array; here at a
    start where the gradient vanishes, and in the same way whenever it (or
    [poissreg]) returns. *)
Lemma bfgs_returns_flat :
  bfgs (@stationary_start rat) (NDArray [:: 2; 2]%N [:: 1; 2; 3; 4]) 1
       (fun=> Some 0) (fun=> Some (zeros rat [:: 2; 2]%N))
  = Some (NDArray [:: 4%N] [:: 1; 2; 3; 4])
  /\ (forall iterate f fgrad r,
        bfgs iterate (NDArray [:: 2; 2]%N [:: 1; 2; 3; 4 : rat]) 1 f fgrad
        = Some r -> shape r <> [:: 2; 2]%N)
  /\ (forall iterate exp x y r,
        poissreg iterate exp (NDArray [:: 2; 2]%N [:: 1; 2; 3; 4 : rat]) 1 x y
        = Some r -> shape r <> [:: 2; 2]%N).
Proof.
split; last first.
  split=> [iterate f fgrad r /bfgs_shape[->] //|iterate exp x y r].
  by rewrite /poissreg; case: (shape x) => // rows _ /bfgs_shape[->].
by rewrite /bfgs /fmin_bfgs /stationary_start /reshape /zeros /= !unlock.
Qed.


(** * Further properties *)

(** ** Thresholding and projection *)

Section Thresholding.

Variable F : realFieldType.
Implicit Types (x a b lam rho gamma : F).

Lemma sqdist_map (f : F -> F) (u v : ndarray F) :
  arr_size u = arr_size v ->
  sqdist (arr_map f u) (arr_map f v)
  = \sum_(0 <= i < arr_size u)
       (f (nth 0 (data u) i) - f (nth 0 (data v) i)) ^+ 2.
Proof.
move=> size_uv; rewrite /sqdist {1}/arr_size /= size_map -/(arr_size u).
apply: eq_big_nat => i /andP[_ lt_i].
by rewrite !(nth_map 0) // -/(arr_size v) -size_uv.
Qed.

Lemma le_sqr_norm a b : `|a| <= `|b| -> a ^+ 2 <= b ^+ 2.
Proof. by move=> le_ab; rewrite -real_normK ?num_real // -[b ^+ 2]real_normK ?num_real // lerXn2r ?nnegrE. Qed.

Lemma soft_threshold_nonexpansive lam a b :
  0 < lam -> `|soft_threshold lam a - soft_threshold lam b| <= `|a - b|.
Proof.
move=> lam_gt0; rewrite /soft_threshold.
case: (lerP lam a) => ha; [|case: (lerP a (- lam)) => ha'];
  (case: (lerP lam b) => hb; [|case: (lerP b (- lam)) => hb']);
  by rewrite ler_norml; case: (ger0P (a - b)) => ?; apply/andP; split; lra.
Qed.

Lemma max0_nonexpansive a b : `|Num.max a 0 - Num.max b 0| <= `|a - b|.
Proof.
rewrite /Num.max; case: (ltrP a 0) => ha; case: (ltrP b 0) => hb;
  by rewrite ler_norml; case: (ger0P (a - b)) => ?; apply/andP; split; lra.
Qed.

Lemma soft_threshold_max0 lam x :
  0 < lam ->
  soft_threshold lam (Num.max x 0) = Num.max (soft_threshold lam x) 0.
Proof.
move=> lam_gt0; rewrite /soft_threshold /Num.max.
case: (ltrP x 0) => hx; case: (lerP lam x) => h1;
  case: (lerP x (- lam)) => h2; rewrite ?lerr;
  repeat (first [case: lerP => ? | case: ltrP => ?]); lra.
Qed.

Lemma soft_threshold_opp lam x :
  0 < lam -> soft_threshold lam (- x) = - soft_threshold lam x.
Proof.
move=> lam_gt0; rewrite /soft_threshold.
by repeat (case: lerP => ?); lra.
Qed.

Lemma soft_threshold_l1 lam rho x a :
  0 < rho -> 0 < lam ->
  lam * rho * `|soft_threshold lam a| + rho / 2 * (soft_threshold lam a - a) ^+ 2
  <= lam * rho * `|x| + rho / 2 * (x - a) ^+ 2.
Proof.
move=> rho_gt0 lam_gt0.
have scale (u v : F) : u <= v -> rho * u <= rho * v by move=> ?; rewrite ler_pM2l.
have factor (s y : F) : lam * rho * `|s| + rho / 2 * y ^+ 2
                   = rho * (lam * `|s| + y ^+ 2 / 2) by field.
rewrite !factor; apply: scale; rewrite /soft_threshold.
have sq_ge0 (y : F) : 0 <= y ^+ 2 / 2 by rewrite divr_ge0 ?sqr_ge0 ?ler0n.
case: (lerP lam a) => ha; [|case: (lerP a (- lam)) => hb].
- have h1 := sq_ge0 (x - a + lam).
  have h2 : lam * x <= lam * `|x| by rewrite ler_pM2l // ler_norm.
  by rewrite ger0_norm ?subr_ge0 //; lra.
- have h1 := sq_ge0 (x - a - lam).
  have h2 : lam * (- x) <= lam * `|x| by rewrite ler_pM2l // -normrN ler_norm.
  by rewrite ler0_norm; lra.
rewrite normr0 mulr0 add0r.
have h1 := sq_ge0 x.
case: (ger0P x) => hx.
  have h2 : 0 <= x * (lam - a) by rewrite mulr_ge0 //; lra.
  by lra.
have h2 : 0 <= (- x) * (lam + a) by rewrite mulr_ge0 //; lra.
by lra.
Qed.

End Thresholding.

Section ThresholdingArrays.

Variable F : realFieldType.
Implicit Types (rho gamma : F) (u v : ndarray F).

Lemma arr_map_id u : arr_map id u = u.
Proof. by case: u => sh d; rewrite /arr_map /= map_id. Qed.

Lemma sparse_objectiveE (x0 : ndarray F) rho gamma u :
  sparse_objective x0 rho gamma u
  = \sum_(0 <= i < arr_size u)
       (gamma * `|nth 0 (data u) i|
        + rho / 2 * (nth 0 (data u) i - nth 0 (data x0) i) ^+ 2).
Proof. by rewrite /sparse_objective /l1_norm /sqdist !mulr_sumr -big_split. Qed.

Lemma sqdist_le_map (f : F -> F) u v :
  (forall a b, `|f a - f b| <= `|a - b|) -> arr_size u = arr_size v ->
  sqdist (arr_map f u) (arr_map f v) <= sqdist u v.
Proof.
move=> f_le size_uv; rewrite sqdist_map //.
by apply: ler_sum_nat => i _; apply: le_sqr_norm.
Qed.

End ThresholdingArrays.

(** X1. Projecting twice is projecting once:
    [nonneg(nonneg(x0, rho), rho') = nonneg(x0, rho)]. *)
Theorem nonneg_idempotent (F : realFieldType) (x0 : ndarray F) (rho rho' : F) :
  nonneg (exact F) (nonneg (exact F) x0 rho) rho' = nonneg (exact F) x0 rho.
Proof.
rewrite /nonneg /np_maximum arr_map_comp; congr (NDArray _ _).
apply: eq_map => x /=; apply/max_idPl.
by rewrite le_max lexx orbT.
Qed.

(** X2. For positive [rho] and [gamma], thresholding and projecting
    commute: [sparse(nonneg(x0)) = nonneg(sparse(x0))]. *)
Theorem sparse_nonneg_commute (F : realFieldType) (x0 : ndarray F)
    (rho gamma : F) :
  0 < rho -> 0 < gamma ->
  sparse (exact F) (nonneg (exact F) x0 rho) rho gamma
  = omap (fun r => nonneg (exact F) r rho) (sparse (exact F) x0 rho gamma).
Proof.
move=> rho_gt0 gamma_gt0; rewrite !sparseE //= /nonneg /np_maximum.
rewrite !arr_map_comp; congr (Some (NDArray _ _)).
by apply: eq_map => x /=; rewrite soft_threshold_max0 // divr_gt0.
Qed.

Lemma sparse_nonneg_commute_example :
  sparse (exact rat) (nonneg (exact rat) (array1d [:: 3; -3; 1 / 2]) 1) 1 1
  = Some (array1d [:: 2; 0; 0])
  /\ omap (fun r => nonneg (exact rat) r 1)
          (sparse (exact rat) (array1d [:: 3; -3; 1 / 2]) 1 1)
     = Some (array1d [:: 2; 0; 0]).
Proof.
by rewrite -(@sparse_nonneg_commute rat (array1d [:: 3; -3; 1 / 2]) 1 1).
Defined.

(** X3. For positive [rho] and [gamma], [sparse x0 rho gamma] is the
    proximal operator its docstring names: it minimises
    [gamma ||x||_1 + (rho / 2) ||x - x0||^2] over the arrays [x] of the
    size of [x0]. *)
Theorem sparse_minimizes_l1 (F : realFieldType) (x0 : ndarray F)
    (rho gamma : F) :
  0 < rho -> 0 < gamma ->
  exists2 r, sparse (exact F) x0 rho gamma = Some r
    & forall x : ndarray F, arr_size x = arr_size x0 ->
        sparse_objective x0 rho gamma r <= sparse_objective x0 rho gamma x.
Proof.
move=> rho_gt0 gamma_gt0; rewrite sparseE //.
eexists; first by reflexivity.
move=> x size_x; rewrite !sparse_objectiveE {1}/arr_size /= size_map.
rewrite -/(arr_size x0) size_x; apply: ler_sum_nat => i /andP[_ lt_i].
rewrite (nth_map 0) //.
have lam_gt0 : 0 < gamma / rho by apply: divr_gt0.
have := soft_threshold_l1 (nth 0 (data x) i) (nth 0 (data x0) i)
          rho_gt0 lam_gt0.
by rewrite divfK // gt_eqF.
Qed.

Lemma sparse_minimizes_l1_example :
  sparse_objective (array1d [:: 3 : rat]) 1 1 (array1d [:: 2])
  <= sparse_objective (array1d [:: 3 : rat]) 1 1 (array1d [:: 5 / 2]).
Proof.
have [r run min_r] :=
  @sparse_minimizes_l1 rat (array1d [:: 3]) 1 1 isT isT.
have -> : array1d [:: 2 : rat] = r.
  by move: run; rewrite sparseE // => -[<-].
exact: min_r.
Defined.

(** X4. For positive [rho] and [gamma], [sparse] is non-expansive: the
    results for two inputs of one size are no further apart than the
    inputs. *)
Theorem sparse_nonexpansive (F : realFieldType) (x y rx ry : ndarray F)
    (rho gamma : F) :
  0 < rho -> 0 < gamma -> arr_size x = arr_size y ->
  sparse (exact F) x rho gamma = Some rx ->
  sparse (exact F) y rho gamma = Some ry ->
  sqdist rx ry <= sqdist x y.
Proof.
move=> rho_gt0 gamma_gt0 size_xy; rewrite !sparseE // => -[<-] [<-].
apply: sqdist_le_map => // a b.
by apply: soft_threshold_nonexpansive; apply: divr_gt0.
Qed.

Lemma sparse_nonexpansive_example :
  sqdist (array1d [:: 2; 0 : rat]) (array1d [:: 0; -1])
  <= sqdist (array1d [:: 3; 1 / 2 : rat]) (array1d [:: 1; -2]).
Proof.
apply: (@sparse_nonexpansive rat (array1d [:: 3; 1 / 2])
          (array1d [:: 1; -2]) _ _ 1 1) => //; by rewrite sparseE.
Defined.

(** X5. [nonneg] is non-expansive as well, whatever [rho]. *)
Theorem nonneg_nonexpansive (F : realFieldType) (x y : ndarray F)
    (rho : F) :
  arr_size x = arr_size y ->
  sqdist (nonneg (exact F) x rho) (nonneg (exact F) y rho) <= sqdist x y.
Proof.
by move=> size_xy; apply: sqdist_le_map => // a b; apply: max0_nonexpansive.
Qed.

Lemma nonneg_nonexpansive_example :
  sqdist (nonneg (exact rat) (array1d [:: -1; 2]) 1)
         (nonneg (exact rat) (array1d [:: 3; -2]) 1)
  <= sqdist (array1d [:: -1; 2 : rat]) (array1d [:: 3; -2]).
Proof.
exact: (@nonneg_nonexpansive rat (array1d [:: -1; 2]) (array1d [:: 3; -2]) 1
          (erefl _)).
Defined.

(** X6. For positive [rho] and [gamma], [sparse] is odd:
    [sparse(-x0) = -sparse(x0)]. *)
Theorem sparse_odd (F : realFieldType) (x0 : ndarray F) (rho gamma : F) :
  0 < rho -> 0 < gamma ->
  sparse (exact F) (arr_map -%R x0) rho gamma
  = omap (arr_map -%R) (sparse (exact F) x0 rho gamma).
Proof.
move=> rho_gt0 gamma_gt0; rewrite !sparseE //= !arr_map_comp.
congr (Some (NDArray _ _)); apply: eq_map => x /=.
by rewrite soft_threshold_opp // divr_gt0.
Qed.

Lemma sparse_odd_example :
  sparse (exact rat) (arr_map -%R (array1d [:: 3; 1 / 2])) 1 1
  = Some (array1d [:: -2; 0]).
Proof.
by rewrite (@sparse_odd rat (array1d [:: 3; 1 / 2]) 1 1) // sparseE.
Defined.

(** X7. With [gamma = 0] (and a [rho] one can divide by) the threshold is
    zero and [sparse] returns its input: the two masks overlap only at the
    entries equal to zero, which stay zero. *)
Theorem sparse_gamma0 (F : realFieldType) (x0 : ndarray F) (rho : F) :
  rho != 0 -> sparse (exact F) x0 rho 0 = Some x0.
Proof.
move=> _; rewrite sparse_entries mul0r -[in RHS](arr_map_id x0).
congr (Some (NDArray _ _)); apply: eq_map => x.
rewrite /sparse_entry /of_bool /= oppr0.
by case: (lerP 0 x) => h1; case: (lerP x 0) => h2; lra.
Qed.

Lemma sparse_gamma0_example :
  sparse (exact rat) (array1d [:: 3; 0; -1 / 2]) 2 0
  = Some (array1d [:: 3; 0; -1 / 2]).
Proof. exact: (@sparse_gamma0 rat (array1d [:: 3; 0; -1 / 2]) 2 isT). Defined.

(** ** Squared error, once more *)

Section Averages.

Variable F : realFieldType.
Implicit Types (a b rho : F).

Lemma weighted_average_between rho a b :
  0 < rho ->
  Num.min a b <= weighted_average rho a b <= Num.max a b.
Proof.
move=> rho_gt0; have rho1_gt0 : 0 < 1 + rho by lra.
have toa : weighted_average rho a b - a = (b - a) / (1 + rho).
  by rewrite /weighted_average; field?; rewrite ?lt0r_neq0.
have tob : b - weighted_average rho a b = rho * (b - a) / (1 + rho).
  by rewrite /weighted_average; field?; rewrite ?lt0r_neq0.
rewrite /Num.min /Num.max; case: (ltrP a b) => hab.
  have h1 : 0 <= (b - a) / (1 + rho) by rewrite divr_ge0; lra.
  have h2 : 0 <= rho * (b - a) / (1 + rho).
    by rewrite divr_ge0 ?mulr_ge0; lra.
  by apply/andP; split; lra.
have h1 : 0 <= (a - b) / (1 + rho) by rewrite divr_ge0; lra.
have h2 : 0 <= rho * (a - b) / (1 + rho).
  by rewrite divr_ge0 ?mulr_ge0; lra.
have e1 : (b - a) / (1 + rho) = - ((a - b) / (1 + rho)) by field?; rewrite ?lt0r_neq0.
have e2 : rho * (b - a) / (1 + rho) = - (rho * (a - b) / (1 + rho)).
  by field?; rewrite ?lt0r_neq0.
by apply/andP; split; lra.
Qed.

End Averages.

(** X8. For positive [rho] and [x_obs] of the shape of [x0], every entry of
    [squared_error x0 rho x_obs] lies between the entries of [x0] and of
    [x_obs] at its place: the result never leaves the box the two arrays
    span. *)
Theorem squared_error_between (F : realFieldType) (x0 : ndarray F)
    (rho : F) (x_obs r : ndarray F) (i : nat) :
  0 < rho -> same_shape x0 x_obs ->
  squared_error (exact F) x0 rho x_obs = Some r ->
  (i < arr_size x0)%N ->
  Num.min (nth 0 (data x0) i) (nth 0 (data x_obs) i)
  <= nth 0 (data r) i
  <= Num.max (nth 0 (data x0) i) (nth 0 (data x_obs) i).
Proof.
move=> rho_gt0 sh; rewrite squared_errorE // => -[<-] /= lt_i.
have size_obs := same_shape_size sh; rewrite /arr_size in size_obs lt_i.
rewrite (nth_map (0, 0)) ?size_zip -?size_obs ?minnn // nth_zip //=.
exact: weighted_average_between.
Qed.

Lemma squared_error_between_example :
  Num.min 1 3 <= (2 : rat) <= Num.max 1 3.
Proof.
exact: (@squared_error_between rat (array1d [:: 1]) 1 (array1d [:: 3])
          (array1d [:: 2]) 0 isT isT (erefl _) isT).
Defined.

(** X9. When the observation is [x0] itself, [squared_error] returns
    [x0], for every positive [rho]. *)
Theorem squared_error_fixed (F : realFieldType) (x0 : ndarray F) (rho : F) :
  0 < rho -> squared_error (exact F) x0 rho x0 = Some x0.
Proof.
move=> rho_gt0.
have sh : same_shape x0 x0 by rewrite /same_shape !eqxx.
rewrite squared_errorE // {sh}.
case: x0 => sh d /=; congr (Some (NDArray _ _)).
rewrite -[RHS]map_id; elim: d => //= a d ->; congr (_ :: _).
by rewrite /weighted_average; field?; rewrite ?lt0r_neq0 //; lra.
Qed.

Lemma squared_error_fixed_example :
  squared_error (exact rat) (array1d [:: 1; -2]) 3 (array1d [:: 1; -2])
  = Some (array1d [:: 1; -2]).
Proof. exact: (@squared_error_fixed rat (array1d [:: 1; -2]) 3 isT). Defined.

(** ** Only the ratio of [rho] and [gamma] matters *)

(** X10. [sparse], [tvd] and [nucnorm] depend on [rho] and [gamma] through
    their ratio only: for nonzero [rho] and [gamma] (each is a divisor in
    one of the three), multiplying both by the same nonzero [c] changes
    nothing. *)
Theorem ratio_invariance (F : realFieldType) (c rho gamma : F) :
  c != 0 -> rho != 0 -> gamma != 0 ->
  [/\ forall x0 : ndarray F,
        sparse (exact F) x0 (c * rho) (c * gamma)
        = sparse (exact F) x0 rho gamma,
      forall denoise (x0 : ndarray F),
        tvd denoise x0 (c * rho) (c * gamma) = tvd denoise x0 rho gamma
    & forall svd m n (x0 : 'M[F]_(m, n)),
        nucnorm svd x0 (c * rho) (c * gamma) = nucnorm svd x0 rho gamma].
Proof.
move=> c_neq0 _ _.
have ratio (a b : F) : (c * a) / (c * b) = a / b.
  by rewrite -mulf_div divff // mul1r.
split=> [x0|denoise x0|svd m n x0].
- by rewrite !sparse_entries ratio.
- by rewrite /tvd ratio.
- by rewrite /nucnorm ratio.
Qed.

Lemma ratio_invariance_example :
  sparse (exact rat) (array1d [:: 3; -3; 1 / 2]) 5 5
  = sparse (exact rat) (array1d [:: 3; -3; 1 / 2]) 1 1.
Proof.
have [scaled _ _] := @ratio_invariance rat 5 1 1 isT isT isT.
by rewrite -scaled !mulr1.
Defined.

(** ** Least squares *)

Section LeastSquares.

Variable F : realFieldType.

Lemma sqnorm_dotp n (u : 'cV[F]_n) : sqnorm u = dotp u u.
Proof. by apply: eq_bigr => i _; rewrite expr2. Qed.

Lemma sqnorm_ge0 n (u : 'cV[F]_n) : 0 <= sqnorm u.
Proof. by apply: sumr_ge0 => i _; apply: sqr_ge0. Qed.

Lemma sqnorm_eq0 n (u : 'cV[F]_n) : sqnorm u = 0 -> u = 0.
Proof.
rewrite /sqnorm => /eqP sum0.
have /allP u0 : all (fun i => true ==> ((u i 0) ^+ 2 == 0)) (index_enum 'I_n).
  by rewrite -psumr_eq0 // => i _; apply: sqr_ge0.
apply/colP=> i; rewrite [RHS]mxE; apply/eqP; rewrite -sqrf_eq0.
by apply: (implyP (u0 i _)); rewrite // mem_index_enum.
Qed.

Lemma dotpC n (u v : 'cV[F]_n) : dotp u v = dotp v u.
Proof. by apply: eq_bigr => i _; rewrite mulrC. Qed.

Lemma dotpDr n (u v w : 'cV[F]_n) : dotp u (v + w) = dotp u v + dotp u w.
Proof. by rewrite -big_split; apply: eq_bigr => i _; rewrite mxE mulrDr. Qed.

Lemma dotpNr n (u v : 'cV[F]_n) : dotp u (- v) = - dotp u v.
Proof. by rewrite -sumrN; apply: eq_bigr => i _; rewrite mxE mulrN. Qed.

Lemma dotpZr n (c : F) (u v : 'cV[F]_n) : dotp u (c *: v) = c * dotp u v.
Proof. by rewrite mulr_sumr; apply: eq_bigr => i _; rewrite mxE mulrCA. Qed.

Lemma dotp0 n (u : 'cV[F]_n) : dotp u 0 = 0.
Proof. by apply: big1 => i _; rewrite mxE mulr0. Qed.

(** [<A d, w> = <d, A^T w>] *)
Lemma dotp_adjoint m n (A : 'M[F]_(m, n)) (d : 'cV[F]_n) (w : 'cV[F]_m) :
  dotp (A *m d) w = dotp d (A^T *m w).
Proof.
rewrite /dotp; under eq_bigr => i _ do rewrite mxE mulr_suml.
rewrite exchange_big /=; apply: eq_bigr => j _.
rewrite mxE mulr_sumr; apply: eq_bigr => i _.
by rewrite mxE mulrCA mulrA.
Qed.

Lemma sqnormD n (u v : 'cV[F]_n) :
  sqnorm (u + v) = sqnorm u + 2 * dotp u v + sqnorm v.
Proof.
rewrite /sqnorm /dotp mulr_sumr -!big_split; apply: eq_bigr => i _.
by rewrite mxE /=; ring.
Qed.

(** A square matrix with a trivial kernel is invertible. *)
Lemma trivial_ker_unitmx n (M : 'M[F]_n) :
  (forall x : 'cV[F]_n, M *m x = 0 -> x = 0) -> M \in unitmx.
Proof.
move=> ker0; rewrite -unitmx_tr -row_free_unit -kermx_eq0.
apply/eqP/row_matrixP=> k; rewrite row0.
apply: trmx_inj; rewrite trmx0; apply: ker0.
by apply: trmx_inj; rewrite trmx_mul trmxK trmx0 -row_mul mulmx_ker row0.
Qed.

Lemma normal_matrix_mul m n (A : 'M[F]_(m, n)) (rho : F) (x : 'cV[F]_n) :
  (rho%:M + A^T *m A) *m x = rho *: x + A^T *m (A *m x).
Proof. by rewrite mulmxDl mul_scalar_mx mulmxA. Qed.

Lemma normal_matrix_unit m n (A : 'M[F]_(m, n)) (rho : F) :
  0 < rho -> rho%:M + A^T *m A \in unitmx.
Proof.
move=> rho_gt0; apply: trivial_ker_unitmx => x /(congr1 (dotp x)).
rewrite normal_matrix_mul dotpDr dotpZr dotp0 -dotp_adjoint -!sqnorm_dotp.
move=> energy; apply: sqnorm_eq0; apply/eqP; rewrite eq_le sqnorm_ge0 andbT.
have := sqnorm_ge0 (A *m x); have := sqnorm_ge0 x.
have : 0 <= rho * sqnorm x by rewrite mulr_ge0 ?sqnorm_ge0 // ltW.
move=> h1 h2 h3; rewrite -(ler_pM2l rho_gt0) mulr0; lra.
Qed.

Lemma normal_solution_min m n (A : 'M[F]_(m, n)) (b : 'cV[F]_m)
    (x0 : 'cV[F]_n) (rho : F) (x y : 'cV[F]_n) :
  0 < rho ->
  (rho%:M + A^T *m A) *m x = rho *: x0 + A^T *m b ->
  linsys_objective A b x0 rho x <= linsys_objective A b x0 rho y.
Proof.
move=> rho_gt0; rewrite normal_matrix_mul => normal.
pose d := y - x; rewrite /linsys_objective.
have -> : A *m y - b = (A *m x - b) + A *m d.
  by rewrite /d mulmxBr; apply/matrixP=> i j; rewrite !mxE; ring.
have -> : y - x0 = (x - x0) + d.
  by rewrite /d; apply/matrixP=> i j; rewrite !mxE; ring.
rewrite (sqnormD (A *m x - b) (A *m d)) (sqnormD (x - x0) d).
have cross : dotp (A *m x - b) (A *m d) + rho * dotp (x - x0) d = 0.
  rewrite [dotp _ (A *m d)]dotpC dotp_adjoint [dotp _ d]dotpC -dotpZr -dotpDr.
  have -> : A^T *m (A *m x - b) + rho *: (x - x0)
            = (rho *: x + A^T *m (A *m x)) - (rho *: x0 + A^T *m b).
    rewrite mulmxBr scalerBr; apply/matrixP=> i j; rewrite !mxE; ring.
  by rewrite normal subrr dotp0.
have h1 := sqnorm_ge0 (A *m d).
have h3 : 0 <= rho * sqnorm d by rewrite mulr_ge0 ?sqnorm_ge0 // ltW.
move: cross h1 h3.
move: (sqnorm (A *m d)) (sqnorm d) (dotp _ (A *m d)) (dotp _ d)
      (sqnorm (A *m x - b)) (sqnorm (x - x0)) => s1 s2 c1 c2 s3 s4.
move=> cross h1 h3.
have -> : (s3 + 2 * c1 + s1) / 2 + rho / 2 * (s4 + 2 * c2 + s2)
          = s3 / 2 + rho / 2 * s4 + (c1 + rho * c2) + (s1 + rho * s2) / 2.
  by field.
by rewrite cross addr0 lerDl divr_ge0 ?addr_ge0.
Qed.

End LeastSquares.

(** X11. With [P = A^T A] and [q = A^T b], what the docstring of [linsys]
    asks for, and a positive [rho], [linsys] never fails: it returns a
    vector, and that vector minimises
    [(1/2) ||A x - b||^2 + (rho / 2) ||x - x0||^2]. *)
Theorem linsys_least_squares (F : realFieldType) m n (A : 'M[F]_(m, n))
    (b : 'cV[F]_m) (x0 : 'cV[F]_n) (rho : F) :
  0 < rho ->
  exists2 x, linsys x0 rho (A^T *m A) (A^T *m b) = Returns x
    & forall y, linsys_objective A b x0 rho x <= linsys_objective A b x0 rho y.
Proof.
move=> rho_gt0; rewrite linsys_system /np_linalg_solve normal_matrix_unit //.
eexists; first by reflexivity.
move=> y; apply: normal_solution_min => //.
by have [] := invmx_solves (rho *: x0 + A^T *m b)
                (normal_matrix_unit A rho_gt0).
Qed.

(** X12. With [P = 0] and a nonzero [rho], [linsys] returns
    [x0 + q / rho]. *)
Theorem linsys_zero_P (F : realFieldType) n (x0 q : 'cV[F]_n) (rho : F) :
  rho != 0 -> linsys x0 rho 0 q = Returns (x0 + rho^-1 *: q).
Proof.
move=> rho_neq0; rewrite linsys_system addr0 /np_linalg_solve.
rewrite det_unitmx det_scalar expf_neq0 // invmx_scalar mul_scalar_mx.
by rewrite scalerDr scalerA mulVf // scale1r.
Qed.

Lemma linsys_zero_P_example :
  linsys (const_mx 1 : 'cV[rat]_2) 2 0 (const_mx 4)
  = Returns (const_mx 1 + 2^-1 *: const_mx 4).
Proof. exact: (@linsys_zero_P rat 2 (const_mx 1) (const_mx 4) 2 isT). Defined.

Lemma linsys_least_squares_example :
  exists2 x : 'cV[rat]_2,
    linsys (const_mx 1) 1 ((1%:M : 'M_2)^T *m 1%:M) ((1%:M)^T *m const_mx 3)
    = Returns x
  & linsys_objective (1%:M : 'M_2) (const_mx 3) (const_mx 1) 1 x
    <= linsys_objective (1%:M : 'M_2) (const_mx 3) (const_mx 1) 1
         (const_mx 0).
Proof.
have [x run min_x] :=
  @linsys_least_squares rat 2 2 1%:M (const_mx 3) (const_mx 1) 1 isT.
by exists x.
Defined.

(** ** Smoothing, once more *)

Section Smoothing.

Variable F : realFieldType.

Lemma smooth_returns n (x0 x : 'cV[F]_n) (rho gamma : F) :
  0 < rho -> 0 < gamma -> smooth x0 rho gamma = Returns x ->
  gamma *: tridiagonal n (2 + rho / gamma) *m x = rho *: x0.
Proof.
move=> rho_gt0 gamma_gt0; rewrite /smooth /spsolve.
have unit := smooth_system_unit n rho_gt0 gamma_gt0.
by rewrite unit -lap_opE => -[<-]; have [] := invmx_solves (rho *: x0) unit.
Qed.

Lemma smooth_max_bound n (x0 x : 'cV[F]_n) (rho gamma M : F) :
  0 < rho -> 0 < gamma ->
  gamma *: tridiagonal n (2 + rho / gamma) *m x = rho *: x0 ->
  (forall j, `|x0 j 0| <= M) -> forall i, `|x i 0| <= M.
Proof.
move=> rho_gt0 gamma_gt0 Ax bound i.
set A := gamma *: tridiagonal n (2 + rho / gamma) in Ax.
pose im := [arg max_(k > i) `|x k 0|]%O.
have max_im k : `|x k 0| <= `|x im 0|.
  by rewrite /im; case: arg_maxP => // m _; apply.
apply: le_trans (max_im i) _.
have /(congr1 (fun y : 'cV_n => y im 0)) := Ax.
rewrite !mxE (bigD1 im) //=; set S := \sum_(j | j != im) _ => row.
have diagE : A im im = 2 * gamma + rho.
  by rewrite !mxE eqxx; field?; rewrite gt_eqF.
have rest : `|S| <= 2 * gamma * `|x im 0|.
  apply: le_trans (ler_norm_sum _ _ _) _.
  apply: le_trans (_ : \sum_(j | j != im) `|A im j| * `|x im 0| <= _).
    by apply: ler_sum => j _; rewrite normrM ler_wpM2l.
  rewrite -mulr_suml ler_wpM2r //.
  exact: tridiagonal_off_diag (ltW gamma_gt0).
have key : (2 * gamma + rho) * `|x im 0| <= rho * M + 2 * gamma * `|x im 0|.
  have diag_gt0 : 0 < 2 * gamma + rho by lra.
  rewrite -[X in X * _](gtr0_norm diag_gt0) -normrM -diagE.
  have -> : A im im * x im 0 = rho * x0 im 0 - S by rewrite -row addrK.
  apply: le_trans (ler_normB _ _) _; rewrite normrM gtr0_norm //.
  by apply: lerD => //; rewrite ler_wpM2l // ltW.
by rewrite -(ler_pM2l rho_gt0); lra.
Qed.

End Smoothing.

(** X13. For positive [rho] and [gamma], smoothing does not amplify: a
    bound on the absolute values of the entries of [x0] also bounds the
    entries of [smooth x0 rho gamma]. *)
Theorem smooth_bounded (F : realFieldType) n (x0 x : 'cV[F]_n)
    (rho gamma M : F) :
  0 < rho -> 0 < gamma -> smooth x0 rho gamma = Returns x ->
  (forall j, `|x0 j 0| <= M) -> forall i, `|x i 0| <= M.
Proof.
move=> rho_gt0 gamma_gt0 run.
exact: smooth_max_bound (smooth_returns rho_gt0 gamma_gt0 run).
Qed.

Lemma smooth_bounded_example :
  `|(const_mx 1 : 'cV[rat]_2) ord0 0| <= 2.
Proof.
have run : smooth (const_mx 2 : 'cV[rat]_2) 1 1 = Returns (const_mx 1).
  rewrite /smooth /spsolve smooth_system_unit //; congr Returns.
  have [_ uniq] := invmx_solves (1 *: const_mx 2 : 'cV[rat]_2)
                     (smooth_system_unit 2 (isT : 0 < (1 : rat))
                        (isT : 0 < (1 : rat))).
  apply/esym/uniq; rewrite lap_opE; apply/matrixP=> i j.
  rewrite !scale1r !mxE !big_ord_recl big_ord0 !mxE /=.
  by case: i => [[|[|i]]] //= lt_i; rewrite ?mulr1 ?addr0.
apply: (@smooth_bounded rat 2 (const_mx 2) (const_mx 1) 1 1 2 isT isT run).
by move=> j; rewrite mxE.
Defined.

(** X14. [smooth] too depends on [rho] and [gamma] through their ratio
    only: for a nonzero [gamma], multiplying both by the same nonzero [c]
    changes neither the result nor whether the solve finds the matrix
    singular. *)
Theorem smooth_ratio_invariance (F : realFieldType) n (x0 : 'cV[F]_n)
    (c rho gamma : F) :
  c != 0 -> gamma != 0 ->
  smooth x0 (c * rho) (c * gamma) = smooth x0 rho gamma.
Proof.
move=> c_neq0 _; rewrite /smooth /spsolve !lap_opE.
have -> : (c * rho) / (c * gamma) = rho / gamma.
  by rewrite -mulf_div divff // mul1r.
rewrite -!scalerA; set A := gamma *: _; set b := rho *: x0.
have c_unit : c \is a GRing.unit by rewrite unitfE.
rewrite (unitmxZ A c_unit); case: ifP => // unit; congr Returns.
rewrite invmxZ ?(unitmxZ A c_unit) // -scalemxAl -scalemxAr scalerA mulVf //.
by rewrite scale1r.
Qed.

Lemma smooth_ratio_invariance_example :
  smooth (const_mx 2 : 'cV[rat]_2) (3 * 1) (3 * 1)
  = smooth (const_mx 2 : 'cV[rat]_2) 1 1.
Proof.
exact: (@smooth_ratio_invariance rat 2 (const_mx 2) 3 1 1 isT isT).
Defined.

(** ** Singular values, once more *)

(** X15. When no singular value exceeds the threshold [gamma / rho]
    ([rho] nonzero), [nucnorm] returns the zero matrix. *)
Theorem nucnorm_vanishes (F : realFieldType) (svd : svd_type F) m n
    (x0 : 'M[F]_(m, n)) (rho gamma : F) :
  rho != 0 ->
  (forall k, (svd m n x0).1.2 0 k <= gamma / rho) ->
  nucnorm svd x0 rho gamma = 0.
Proof.
move=> _; rewrite /nucnorm; case: (svd m n x0) => [[u s] v] /= small.
have -> : map_mx (fun sigma => Num.max (sigma - gamma / rho) 0) s = 0.
  apply/rowP=> k; rewrite !mxE; apply/max_idPr.
  by rewrite subr_le0.
have -> : diag_mx (0 : 'rV[F]_(minn m n)) = 0.
  by apply/matrixP=> i j; rewrite !mxE mul0rn.
by rewrite mulmx0 mul0mx.
Qed.

Lemma nucnorm_vanishes_example :
  nucnorm (@diagonal_svd rat)
    (diag_mx (\row_(j < 2) (if j == 0 then 1 / 2 else 1 / 3)) : 'M[rat]_2) 1 1
  = 0.
Proof.
apply: (@nucnorm_vanishes rat (@diagonal_svd rat)) => // k.
rewrite /diagonal_svd /= !mxE /=.
by case: k => [[|[|k]]] //= lt_k.
Defined.

(** X16. With [gamma = 0] nothing is shrunk: when the factors returned
    by the SVD routine multiply back to [x0] and the singular values are
    non-negative, [nucnorm] returns [x0]. *)
Theorem nucnorm_gamma0 (F : realFieldType) (svd : svd_type F) m n
    (x0 : 'M[F]_(m, n)) (rho : F) :
  rho != 0 ->
  x0 = (svd m n x0).1.1 *m diag_mx (svd m n x0).1.2 *m (svd m n x0).2 ->
  (forall k, 0 <= (svd m n x0).1.2 0 k) ->
  nucnorm svd x0 rho 0 = x0.
Proof.
move=> _; rewrite /nucnorm; case: (svd m n x0) => [[u s] v] /= x0E s_ge0.
have -> : map_mx (fun sigma => Num.max (sigma - 0 / rho) 0) s = s.
  apply/rowP=> k; rewrite !mxE mul0r subr0; apply/max_idPl.
  exact: s_ge0.
by rewrite -x0E.
Qed.

Lemma nucnorm_gamma0_example :
  nucnorm (@diagonal_svd rat)
    (diag_mx (\row_(j < 2) (if j == 0 then 3 else 1 / 2)) : 'M[rat]_2) 1 0
  = diag_mx (\row_(j < 2) (if j == 0 then 3 else 1 / 2)).
Proof.
apply: (@nucnorm_gamma0 rat (@diagonal_svd rat)) => //.
  apply/matrixP=> i j; rewrite /diagonal_svd /= !mxE !big_ord_recl big_ord0.
  rewrite !mxE !big_ord_recl big_ord0 !mxE /=.
  by case: i => [[|[|i]]] //= lt_i; case: j => [[|[|j]]] //= lt_j;
     rewrite ?big_ord0 ?mulr1n ?mulr0n ?mul1r ?mul0r ?mulr1 ?mulr0 ?addr0
             ?add0r.
move=> k; rewrite /diagonal_svd /= !mxE /=.
by case: k => [[|[|k]]] //= lt_k.
Defined.

(** ** Fixed points of the minimiser-based operators *)

Section Stationary.

Variable F : realFieldType.

Lemma zip_sub_self (s : seq F) :
  [seq p.1 - p.2 | p <- zip s s] = nseq (size s) 0.
Proof. by elim: s => //= a s ->; rewrite subrr. Qed.

Lemma zip_add_zeros (s : seq F) :
  [seq p.1 + p.2 | p <- zip s (nseq (size s) 0)] = s.
Proof. by elim: s => //= a s ->; rewrite addr0. Qed.

Lemma flatten_1d (a : ndarray F) : shape a = [:: arr_size a] -> flatten a = a.
Proof. by case: a => sh d /= ->. Qed.

(** At the start the proximal term of [dg] vanishes: the gradient the
    minimiser is given there is [fgrad]'s. *)
Lemma prox_gradient_start (x0 gx : ndarray F) (rho : F) :
  \prod_(d <- shape x0) d = arr_size x0 -> same_shape gx x0 ->
  obind (fun xr => obind (fun d => add (exact F) gx (scale (exact F) rho d))
                         (sub (exact F) xr x0))
        (reshape (flatten x0) (shape x0))
  = Some gx.
Proof.
move=> wf /andP[/eqP sh_gx /eqP size_gx].
rewrite /reshape wf /arr_size /= eqxx /=.
rewrite /sub /arr_map2 /same_shape /= !eqxx /= zip_sub_self.
rewrite /add /scale /arr_map /arr_map2 /same_shape /= map_nseq mulr0.
rewrite size_nseq sh_gx size_gx !eqxx /= -size_gx zip_add_zeros -sh_gx.
by case: gx {sh_gx size_gx}.
Qed.

(** And the objective [g] has a value there as soon as [f] has one. *)
Lemma prox_value_start (x0 : ndarray F) (rho fx : F) :
  \prod_(d <- shape x0) d = arr_size x0 ->
  obind (fun xr => obind (fun d => Some (fx + rho / 2 * np_sum (square d)))
                         (sub (exact F) xr x0))
        (reshape (flatten x0) (shape x0))
  = Some fx.
Proof.
move=> wf; rewrite /reshape wf /arr_size /= eqxx /=.
rewrite /sub /arr_map2 /same_shape /= !eqxx /= zip_sub_self.
rewrite /np_sum /square /= big_map big1_seq ?mulr0 ?addr0 // => v /andP[_].
by rewrite mem_nseq => /andP[_ /eqP->]; rewrite expr0n.
Qed.

Lemma fmin_bfgs_stationary (iterate : minimizer F) g (x0 : ndarray F) dg
    fx gx :
  stops_when_stationary iterate ->
  g (flatten x0) = Some fx -> dg (flatten x0) = Some gx ->
  all (fun v => v == 0) (data gx) ->
  fmin_bfgs iterate g x0 dg = Some (flatten x0).
Proof.
move=> stops gE dgE gx0; rewrite /fmin_bfgs.
by rewrite (stops _ _ _ fx gx).
Qed.

Lemma dot_shape (x w : ndarray F) n k :
  shape x = [:: n; k] -> shape w = [:: k] ->
  exists2 r, dot x w = Some r & shape r = [:: n] /\ arr_size r = n.
Proof.
move=> sh_x sh_w; rewrite /dot sh_x sh_w eqxx.
by eexists; first by []; rewrite /arr_size /= size_mkseq.
Qed.

Lemma transpose_shape (x : ndarray F) n k :
  shape x = [:: n; k] ->
  exists2 xt, transpose x = Some xt & shape xt = [:: k; n].
Proof. by move=> sh_x; rewrite /transpose sh_x; eexists. Qed.

End Stationary.

(** X17. A stationary point of [f] is a fixed point of [bfgs]: when [f]
    has a value at [x0] and [fgrad] vanishes there, the objective and the
    gradient [bfgs] hands to the minimiser are [f]'s at the start, and a
    minimiser that stops where the gradient vanishes returns [x0],
    flattened, whatever [rho]. *)
Theorem bfgs_fixed_point (F : realFieldType) (iterate : minimizer F)
    (x0 : ndarray F) (rho : F) f fgrad fx gx :
  stops_when_stationary iterate ->
  \prod_(d <- shape x0) d = arr_size x0 ->
  f (flatten x0) = Some fx -> fgrad (flatten x0) = Some gx ->
  same_shape gx x0 -> all (fun v => v == 0) (data gx) ->
  bfgs iterate x0 rho f fgrad = Some (flatten x0).
Proof.
move=> stops wf fE gE sh_gx gx0; rewrite /bfgs.
apply: (fmin_bfgs_stationary (fx := fx) (gx := gx)) => //.
  by rewrite fE /= prox_value_start.
by rewrite gE /= prox_gradient_start.
Qed.

Lemma bfgs_fixed_point_example :
  bfgs (@stationary_start rat) (NDArray [:: 2; 2]%N [:: 1; 2; 3; 4]) 5
       (fun=> Some 0) (fun=> Some (zeros rat [:: 2; 2]%N))
  = Some (NDArray [:: 4%N] [:: 1; 2; 3; 4]).
Proof.
apply: (@bfgs_fixed_point rat (@stationary_start rat)
          (NDArray [:: 2; 2]%N [:: 1; 2; 3; 4]) 5 (fun=> Some 0)
          (fun=> Some (zeros rat [:: 2; 2]%N)) 0 (zeros rat [:: 2; 2]%N)).
- by move=> f fprime x fx g _ fpE g0; rewrite /stationary_start fpE g0.
- by rewrite !unlock.
- by [].
- by [].
- by rewrite /same_shape /zeros /= !unlock.
- by rewrite /zeros /= !unlock.
Defined.

(** X18. A solution of the score equations is a fixed point of
    [poissreg]: for a design matrix [x] of [n > 0] rows and [k] columns,
    responses [y] of length [n] and a parameter vector [x0] of length [k]
    with [x.T.dot(exp(x.dot(x0))) = x.T.dot(y)], the gradient [df]
    vanishes at [x0], and a minimiser that stops where the gradient
    vanishes returns [x0], whatever [rho]. *)
Theorem poissreg_fixed_point (F : realFieldType) (iterate : minimizer F)
    (exp : F -> F) (x0 : ndarray F) (rho : F) (x y : ndarray F) (n k : nat) :
  stops_when_stationary iterate ->
  (0 < n)%N ->
  shape x = [:: n; k] -> arr_size x = (n * k)%N ->
  shape x0 = [:: k] -> arr_size x0 = k ->
  shape y = [:: n] -> arr_size y = n ->
  (forall xw xt, dot x x0 = Some xw -> transpose x = Some xt ->
     dot xt (arr_map exp xw) = dot xt y) ->
  poissreg iterate exp x0 rho x y = Some x0.
Proof.
move=> stops n_gt0 sh_x _ sh_x0 sz_x0 sh_y sz_y score.
have flat : flatten x0 = x0 by apply: flatten_1d; rewrite sh_x0 sz_x0.
have wf : \prod_(d <- shape x0) d = arr_size x0.
  by rewrite sh_x0 big_seq1.
have [xw xwE [sh_xw sz_xw]] := dot_shape sh_x sh_x0.
have xwE' : dot x (flatten x0) = Some xw by rewrite flat.
have [xt xtE sh_xt] := transpose_shape sh_x.
have [b bE [sh_b sz_b]] := dot_shape sh_xt sh_y.
have aE : dot xt (arr_map exp xw) = Some b by rewrite (score _ _ xwE xtE).
have [yxw yxwE] : exists yxw, mul (exact F) y xw = Some yxw.
  rewrite /mul /arr_map2 /same_shape sh_y sh_xw eqxx.
  by move: sz_y sz_xw; rewrite /arr_size => -> ->; rewrite eqxx; eexists.
have [d dE] : exists d, sub (exact F) (arr_map exp xw) yxw = Some d.
  move: yxwE; rewrite /mul /sub /arr_map2; case: ifP => // _ [<-].
  by rewrite /same_shape /= sh_xw sh_y eqxx !size_map size_zip
             -!/(arr_size _) sz_y sz_xw minnn eqxx; eexists.
pose gx := NDArray [:: k] (nseq k (0 : F)).
rewrite /poissreg sh_x /bfgs -[in RHS]flat.
apply: (fmin_bfgs_stationary (fx := np_mean d) (gx := gx)) => //.
- by rewrite /= xwE' /= yxwE /= dE /= prox_value_start.
- rewrite /= xwE' /= xtE /= aE bE /=.
  have -> : sub (exact F) b b = Some gx.
    rewrite /sub /arr_map2 /same_shape !eqxx /= zip_sub_self.
    by rewrite sh_b -/(arr_size b) sz_b.
  have scaled : div_scalar (exact F) gx n%:R = gx.
    by rewrite /div_scalar /arr_map /= map_nseq mul0r.
  rewrite [obind _ (Some gx)]/= scaled [obind _ (Some gx)]/=.
  rewrite prox_gradient_start //.
  by rewrite /same_shape /= sh_x0 eqxx size_nseq -/(arr_size x0) sz_x0 eqxx.
- by apply/allP=> v /=; rewrite mem_nseq => /andP[_].
Qed.

(** An instance: the design matrix [[1], [2]], the responses [1, 1] and
    the start [0].  There [x.dot(x0)] is zero, the exponential is taken at
    0 only, where it is 1, and both sides of the score equations are
    [1 + 2]; the function standing for [np.exp] has its value at 0. *)
Lemma poissreg_fixed_point_example :
  poissreg (@stationary_start rat) (fun v => 1 + v) (array1d [:: 0]) 5
           (NDArray [:: 2; 1]%N [:: 1; 2]) (array1d [:: 1; 1])
  = Some (array1d [:: 0]).
Proof.
apply: (@poissreg_fixed_point rat (@stationary_start rat) (fun v => 1 + v)
          (array1d [:: 0]) 5 (NDArray [:: 2; 1]%N [:: 1; 2])
          (array1d [:: 1; 1]) 2 1) => //.
  by move=> f fprime x fx g _ fpE g0; rewrite /stationary_start fpE g0.
move=> xw xt; rewrite /dot /transpose /= => -[<-] [<-] /=.
by rewrite !unlock /= !mulr0 !addr0.
Defined.
